(** * Timer bookkeeping of the React/TypeScript base template

  A shallow embedding of two pieces of the template that own timers:

  - [Debounce]: the [useAdvancedDebounce] hook of [src/hooks/useDebounce.ts]
    (three refs, one React state cell, and the host timer service);
  - [Toast]: the [notify] / [dismiss] / [dismissAll] callbacks of
    [src/contexts/ToastContext.tsx].

  JavaScript runs these callbacks on one thread, so every callback is a
  state transformer; a callback that may throw returns a completion next to
  the state it leaves behind. *)

From Stdlib Require Import List Arith PArith ZArith Lia Bool String DecimalString.
From Stdlib Require Import Ascii Permutation.
From Stdlib Require DecimalNat DecimalPos DecimalZ.
Import ListNotations.

Set Implicit Arguments.

Module Debounce.

Section Controller.

(** [unknown] values passed to the debounced function, and thrown values. *)
Variable Arg : Type.
Variable Err : Type.

(** [...args: unknown[]] *)
Definition Args := list Arg.

(** How a JavaScript call ends.  The hook ignores what its callback returns,
    so a normal completion carries no value. *)
Inductive completion : Type :=
| Returned
| Threw (e : Err).

(** [AnyFunction], seen from the hook: it is applied to the argument array
    and either returns or throws. *)
Definition Callback := Args -> completion.

(** [ReturnType<typeof setTimeout>]: the host hands out integers greater
    than zero, so a handle is always truthy. *)
Definition handle := positive.

(** One invocation of the bound action, as an observer sees it. *)
Record Call := mkCall {
  call_fn : Callback;
  call_args : Args;
  call_at : nat;
  call_result : completion
}.

(** The three refs and the state cell of [useAdvancedDebounce], the host
    timer service ([clock], [next_handle], [timers]: scheduled and neither
    cleared nor fired yet, with the time each is due), and what an observer
    records: the invocations of the action and the errors that reached the
    host from a timer callback. *)
Record State := mkState {
  callbackRef : Callback;
  timeoutRef : option handle;
  argsRef : option Args;
  isPending : bool;
  clock : nat;
  next_handle : handle;
  timers : list (handle * nat);
  calls : list Call;
  uncaught : list Err
}.

Definition set_callbackRef (v : Callback) (s : State) : State :=
  mkState v (timeoutRef s) (argsRef s) (isPending s)
          (clock s) (next_handle s) (timers s) (calls s) (uncaught s).

Definition set_timeoutRef (v : option handle) (s : State) : State :=
  mkState (callbackRef s) v (argsRef s) (isPending s)
          (clock s) (next_handle s) (timers s) (calls s) (uncaught s).

Definition set_argsRef (v : option Args) (s : State) : State :=
  mkState (callbackRef s) (timeoutRef s) v (isPending s)
          (clock s) (next_handle s) (timers s) (calls s) (uncaught s).

Definition set_isPending (v : bool) (s : State) : State :=
  mkState (callbackRef s) (timeoutRef s) (argsRef s) v
          (clock s) (next_handle s) (timers s) (calls s) (uncaught s).

Definition set_clock (v : nat) (s : State) : State :=
  mkState (callbackRef s) (timeoutRef s) (argsRef s) (isPending s)
          v (next_handle s) (timers s) (calls s) (uncaught s).

Definition set_next_handle (v : handle) (s : State) : State :=
  mkState (callbackRef s) (timeoutRef s) (argsRef s) (isPending s)
          (clock s) v (timers s) (calls s) (uncaught s).

Definition set_timers (v : list (handle * nat)) (s : State) : State :=
  mkState (callbackRef s) (timeoutRef s) (argsRef s) (isPending s)
          (clock s) (next_handle s) v (calls s) (uncaught s).

Definition set_calls (v : list Call) (s : State) : State :=
  mkState (callbackRef s) (timeoutRef s) (argsRef s) (isPending s)
          (clock s) (next_handle s) (timers s) v (uncaught s).

Definition set_uncaught (v : list Err) (s : State) : State :=
  mkState (callbackRef s) (timeoutRef s) (argsRef s) (isPending s)
          (clock s) (next_handle s) (timers s) (calls s) v.

(** ** Statements

    A statement transforms the state and completes.  Sequencing stops at the
    first statement that throws: what follows it does not run. *)
Definition stmt := State -> State * completion.

Definition skip : stmt := fun s => (s, Returned).

Definition andThen (a b : stmt) : stmt :=
  fun s =>
    match a s with
    | (s1, Returned) => b s1
    | (s1, Threw e) => (s1, Threw e)
    end.

Local Notation "a ;; b" := (andThen a b) (at level 61, right associativity).

(** [ref.current = v] and [setIsPending(v)]. *)
Definition assign_timeoutRef (v : option handle) : stmt :=
  fun s => (set_timeoutRef v s, Returned).

Definition assign_argsRef (v : option Args) : stmt :=
  fun s => (set_argsRef v s, Returned).

Definition setIsPending (v : bool) : stmt :=
  fun s => (set_isPending v s, Returned).

(** ** Host timer service *)

Definition is_handle (h : handle) (t : handle * nat) : bool :=
  Pos.eqb (fst t) h.

(** [clearTimeout(h)]: the timer, if still scheduled, never fires; an
    unknown handle is ignored. *)
Definition clearTimeout (h : handle) : stmt :=
  fun s =>
    (set_timers (filter (fun t => negb (is_handle h t)) (timers s)) s,
     Returned).

(** [setTimeout(callback, delay)]: schedules the callback [delay]
    milliseconds from now and returns a fresh handle.  Every callback this
    hook schedules is the closure of lines 144-151, which reads the refs
    when it runs, so the table need not store it. *)
Definition setTimeout (delay : nat) (s : State) : handle * State :=
  let h := next_handle s in
  (h, set_next_handle (Pos.succ h)
        (set_timers (timers s ++ [(h, clock s + delay)]) s)).

(** ** The hook *)

(** [callbackRef.current(...args)], recorded in [calls]. *)
Definition call_callback (args : Args) : stmt :=
  fun s =>
    let r := callbackRef s args in
    (set_calls (calls s ++ [mkCall (callbackRef s) args (clock s) r]) s, r).

(** Lines 111-113: the effect that runs when a render supplies a new
    [callback]. *)
Definition rebind (cb : Callback) : stmt :=
  fun s => (set_callbackRef cb s, Returned).

(** Lines 115-122. *)
Definition cancel : stmt :=
  fun s =>
    match timeoutRef s with
    | Some h =>
        (clearTimeout h ;;
         assign_timeoutRef None ;;
         assign_argsRef None ;;
         setIsPending false) s
    | None => skip s
    end.

(** Lines 124-132.  An argument array is truthy even when empty. *)
Definition flush : stmt :=
  fun s =>
    match timeoutRef s, argsRef s with
    | Some h, Some args =>
        (clearTimeout h ;;
         assign_timeoutRef None ;;
         call_callback args ;;
         assign_argsRef None ;;
         setIsPending false) s
    | _, _ => skip s
    end.

(** Lines 144-151: the closure handed to [setTimeout]. *)
Definition on_timeout : stmt :=
  (fun s =>
     match argsRef s with
     | Some args => (call_callback args ;; assign_argsRef None) s
     | None => skip s
     end) ;;
  assign_timeoutRef None ;;
  setIsPending false.

(** Lines 134-154: the debounced function ("trigger"). *)
Definition debounced (delay : nat) (args : Args) : stmt :=
  assign_argsRef (Some args) ;;
  (fun s =>
     match timeoutRef s with
     | Some h => clearTimeout h s
     | None => skip s
     end) ;;
  setIsPending true ;;
  (fun s =>
     let (h, s1) := setTimeout delay s in
     assign_timeoutRef (Some h) s1).

(** Lines 156-162: the cleanup that runs when the owning component
    unmounts. *)
Definition unmount : stmt :=
  fun s =>
    match timeoutRef s with
    | Some h => clearTimeout h s
    | None => skip s
    end.

(** The first render: [useRef(callback)], [useRef(undefined)],
    [useRef(null)], [useState(false)], on a host with nothing scheduled. *)
Definition mount (cb : Callback) : State :=
  mkState cb None None false 0 1%positive [] [] [].

(** ** The host firing timers *)

(** The host takes a scheduled timer out of its table and runs its
    callback, not before the time it is due; an error the callback throws
    reaches the host, which reports it. A handle that is not scheduled
    (cleared, or fired already) runs nothing. *)
Definition fire (h : handle) (s : State) : State :=
  match find (is_handle h) (timers s) with
  | None => s
  | Some (_, due) =>
      let s1 :=
        set_clock (Nat.max (clock s) due)
          (set_timers (filter (fun t => negb (is_handle h t)) (timers s)) s)
      in
      match on_timeout s1 with
      | (s2, Returned) => s2
      | (s2, Threw e) => set_uncaught (uncaught s2 ++ [e]) s2
      end
  end.

(** Among the timers due at [t] or before, the one due first; of two due
    together, the one scheduled first. *)
Fixpoint next_due (t : nat) (l : list (handle * nat)) : option (handle * nat) :=
  match l with
  | [] => None
  | (h, d) :: r =>
      match next_due t r with
      | Some (h', d') => if d <=? d' then Some (h, d) else Some (h', d')
      | None => if d <=? t then Some (h, d) else None
      end
  end.

Fixpoint run_due (fuel : nat) (t : nat) (s : State) : State :=
  match fuel with
  | O => s
  | S fuel' =>
      match next_due t (timers s) with
      | Some (h, _) => run_due fuel' t (fire h s)
      | None => s
      end
  end.

(** Time passes until [t]: every timer due by then fires, in order.  A
    timer callback of this hook schedules nothing, so one round per
    scheduled timer is enough (see [advance_leaves_nothing_due]). *)
Definition advance (t : nat) (s : State) : State :=
  let s1 := run_due (List.length (timers s)) t s in
  set_clock (Nat.max (clock s1) t) s1.

(** ** Events of a controller's life *)

Inductive event : Type :=
| Trigger (args : Args)
| Cancel
| Flush
| Elapse (t : nat)
| Rebind (cb : Callback).

(** An error thrown out of [flush] goes to whoever called it; the state is
    the one the statement left. *)
Definition step (delay : nat) (ev : event) (s : State) : State :=
  match ev with
  | Trigger args => fst (debounced delay args s)
  | Cancel => fst (cancel s)
  | Flush => fst (flush s)
  | Elapse t => advance t s
  | Rebind cb => fst (rebind cb s)
  end.

Definition run (delay : nat) (evs : list event) (s : State) : State :=
  fold_left (fun s ev => step delay ev s) evs s.

Inductive reachable (delay : nat) (cb : Callback) : State -> Prop :=
| reach_mount : reachable delay cb (mount cb)
| reach_step s ev : reachable delay cb s -> reachable delay cb (step delay ev s).

(** ** A burst of triggers *)

(** Calls of the debounced function with the time of each: time passes
    until the call, then the call happens. *)
Definition burst_events (l : list (nat * Args)) : list event :=
  flat_map (fun c => [Elapse (fst c); Trigger (snd c)]) l.

(** Every call of [l] comes less than [delay] after the one before it, the
    first of them after [prev]. *)
Fixpoint spaced (delay : nat) (prev : nat) (l : list (nat * Args)) : Prop :=
  match l with
  | [] => True
  | c :: r => prev <= fst c /\ fst c < prev + delay /\ spaced delay (fst c) r
  end.

Definition is_trigger (ev : event) : bool :=
  match ev with
  | Trigger _ => true
  | _ => false
  end.

(** ** Shapes of the state *)

(** The host holds at most one timer of this hook, the one [timeoutRef]
    names. *)
Definition one_timer (s : State) : Prop :=
  match timers s with
  | [] => True
  | [(h, _)] => timeoutRef s = Some h
  | _ => False
  end.

(** No invocation of the action so far has thrown. *)
Definition all_returned (s : State) : Prop :=
  Forall (fun c => call_result c = Returned) (calls s).

(** The two states of the controller when no invocation has thrown:
    Pending, with one timer, the stored arguments and the flag up; Idle,
    with none of them. *)
Definition settled (s : State) : Prop :=
  match timeoutRef s with
  | Some h =>
      (exists due, timers s = [(h, due)]) /\
      (exists args, argsRef s = Some args) /\
      isPending s = true
  | None => timers s = [] /\ argsRef s = None /\ isPending s = false
  end.



(** The most recent invocation of the action threw. *)
Definition last_threw (s : State) : Prop :=
  exists before c e, calls s = before ++ [c] /\ call_result c = Threw e.

(** What the pending flag is specified to mean. *)
Definition flag_tracks_timer (s : State) : Prop :=
  isPending s = true <-> timers s <> [].


(** A list of events with no call of the debounced function in it. *)
Definition no_trigger (evs : list event) : Prop :=
  forallb (fun ev => negb (is_trigger ev)) evs = true.

(** The controller was last triggered at [t] with [args] and nothing has
    happened to it since. *)
Definition waiting (delay : nat) (t : nat) (args : Args) (s : State) : Prop :=
  exists h,
    timers s = [(h, t + delay)] /\ timeoutRef s = Some h /\
    argsRef s = Some args /\ clock s = t.

(** Everything the cleanup after an invocation resets. *)
Definition cleaned (s' : State) : Prop :=
  timeoutRef s' = None /\ argsRef s' = None /\ isPending s' = false.

(** What a flush of the pending arguments [args] is specified to leave:
    one invocation with them, the arguments discarded, the flag down. *)
Definition flushed (s : State) (args : Args) (s' : State) : Prop :=
  calls s' =
    calls s ++ [mkCall (callbackRef s) args (clock s) (callbackRef s args)] /\
  argsRef s' = None /\
  isPending s' = false.

End Controller.

Arguments Returned {Err}.
Arguments Trigger {Arg Err} args.
Arguments Cancel {Arg Err}.
Arguments Flush {Arg Err}.
Arguments Elapse {Arg Err} t.
Arguments Rebind {Arg Err} cb.
Arguments burst_events {Arg Err} l.

(** ** Two concrete actions *)

Definition saves : Callback string string := fun _ => Returned.

Definition fails : Callback string string := fun _ => Threw "save failed"%string.

(** A controller with delay 300, right after its first trigger. *)
Definition armed (cb : Callback string string) : State string string :=
  fst (debounced 300 ["a"%string] (mount cb)).



(** Delay 300: calls with "a" at 0, "b" at 100 and "c" at 150. *)
Definition three_calls : list (nat * Args string) :=
  [(0, ["a"%string]); (100, ["b"%string]); (150, ["c"%string])].

End Debounce.

Module Toast.

Local Open Scope Z_scope.

(** ['success' | 'error' | 'warning' | 'info'] *)
Inductive ToastType : Type := Success | Error | Warning | Info.

Inductive ToastPosition : Type :=
| top_right
| top_left
| bottom_right
| bottom_left
| top_center
| bottom_center.

(** [duration] is a count of milliseconds. *)
Record Toast := mkToast {
  id : string;
  type : ToastType;
  message : string;
  title : option string;
  duration : Z;
  position : ToastPosition
}.

(** Every field of [ToastOptions] may be left out. *)
Record ToastOptions := mkOptions {
  opt_title : option string;
  opt_duration : option Z;
  opt_position : option ToastPosition
}.

Definition DEFAULT_DURATION : Z := 5000.
Definition DEFAULT_POSITION : ToastPosition := top_right.

(** A call the provider received: [dismiss(id)] or [dismissAll()]. *)
Inductive dismissal : Type :=
| DismissOne (i : string)
| DismissEvery.

(** The [toasts] state cell of [ToastProvider]; the host: [Date.now()] and
    the scheduled timers, each with the time it is due and the id its closure
    [() => dismiss(id)] captured ([notify] drops the handle, so a timer is
    never cleared); and, for an observer, the dismiss calls made so far. *)
Record State := mkState {
  toasts : list Toast;
  now : Z;
  timers : list (Z * string);
  dismissals : list dismissal
}.

Definition setToasts (f : list Toast -> list Toast) (s : State) : State :=
  mkState (f (toasts s)) (now s) (timers s) (dismissals s).

Definition set_now (v : Z) (s : State) : State :=
  mkState (toasts s) v (timers s) (dismissals s).

Definition set_timers (v : list (Z * string)) (s : State) : State :=
  mkState (toasts s) (now s) v (dismissals s).

Definition record (d : dismissal) (s : State) : State :=
  mkState (toasts s) (now s) (timers s) (dismissals s ++ [d]).

(** Lines 60-62. *)
Definition dismiss (i : string) (s : State) : State :=
  setToasts (fun current => filter (fun toast => negb (String.eqb (id toast) i)) current)
    (record (DismissOne i) s).

(** Lines 64-66. *)
Definition dismissAll (s : State) : State :=
  setToasts (fun _ => []) (record DismissEvery s).

(** [setTimeout(() => { dismiss(id); }, delay)] *)
Definition setTimeout (i : string) (delay : Z) (s : State) : State :=
  set_timers (timers s ++ [(now s + delay, i)]) s.

(** Line 74; [rnd] is what [Math.random().toString(36).slice(2, 9)] gave. *)
Definition make_id (t : Z) (rnd : string) : string :=
  ("toast-" ++ NilZero.string_of_int (Z.to_int t) ++ "-" ++ rnd)%string.

(** [a ?? b] *)
Definition nullish {A : Type} (a : option A) (b : A) : A :=
  match a with
  | Some v => v
  | None => b
  end.

(** [options?.field] *)
Definition optional {A : Type} (options : option ToastOptions)
  (field : ToastOptions -> option A) : option A :=
  match options with
  | Some o => field o
  | None => None
  end.

(** Lines 68-97. *)
Definition notify (rnd : string) (ty : ToastType) (msg : string)
  (options : option ToastOptions) (s : State) : string * State :=
  let i := make_id (now s) rnd in
  let toast :=
    mkToast i ty msg
      (optional options opt_title)
      (nullish (optional options opt_duration) DEFAULT_DURATION)
      (nullish (optional options opt_position) DEFAULT_POSITION) in
  let s1 := setToasts (fun current => current ++ [toast]) s in
  let s2 := if 0 <? duration toast then setTimeout i (duration toast) s1 else s1 in
  (i, s2).

(** Lines 99-121. *)
Definition success := fun rnd => notify rnd Success.
Definition error := fun rnd => notify rnd Error.
Definition warning := fun rnd => notify rnd Warning.
Definition info := fun rnd => notify rnd Info.

Definition mount : State := mkState [] 0 [] [].

(** Among the timers due at [t] or before, the one due first (of two due
    together, the one scheduled first), and the timers that stay. *)
Fixpoint pop_due (t : Z) (l : list (Z * string))
  : option ((Z * string) * list (Z * string)) :=
  match l with
  | [] => None
  | (d, i) :: r =>
      match pop_due t r with
      | Some ((d', i'), r') =>
          if d <=? d' then Some ((d, i), r) else Some ((d', i'), (d, i) :: r')
      | None => if d <=? t then Some ((d, i), r) else None
      end
  end.

Fixpoint run_due (fuel : nat) (t : Z) (s : State) : State :=
  match fuel with
  | O => s
  | S fuel' =>
      match pop_due t (timers s) with
      | Some ((due, i), rest) =>
          run_due fuel' t (dismiss i (set_now (Z.max (now s) due) (set_timers rest s)))
      | None => s
      end
  end.

(** Time passes until [t]: every timer due by then fires, in order. *)
Definition advance (t : Z) (s : State) : State :=
  let s1 := run_due (List.length (timers s)) t s in
  set_now (Z.max (now s1) t) s1.

Inductive event : Type :=
| Notify (rnd : string) (ty : ToastType) (msg : string) (options : option ToastOptions)
| Dismiss (i : string)
| DismissAll
| Elapse (t : Z).

Definition step (ev : event) (s : State) : State :=
  match ev with
  | Notify rnd ty msg options => snd (notify rnd ty msg options s)
  | Dismiss i => dismiss i s
  | DismissAll => dismissAll s
  | Elapse t => advance t s
  end.

Definition run (evs : list event) (s : State) : State :=
  fold_left (fun s ev => step ev s) evs s.

(** The toast [notify] builds. *)
Definition made (rnd : string) (ty : ToastType) (msg : string)
  (options : option ToastOptions) (s : State) : Toast :=
  mkToast (make_id (now s) rnd) ty msg
    (optional options opt_title)
    (nullish (optional options opt_duration) DEFAULT_DURATION)
    (nullish (optional options opt_position) DEFAULT_POSITION).

(** Among the dismiss calls [log] there is neither [dismiss(i)] nor
    [dismissAll()]. *)
Definition spared (i : string) (log : list dismissal) : Prop :=
  ~ In (DismissOne i) log /\ ~ In DismissEvery log.

(** Two options records: a toast that stays, and one shown for 3 seconds. *)
Definition sticky : ToastOptions := mkOptions None (Some 0) None.
Definition brief : ToastOptions := mkOptions None (Some 3000) None.

End Toast.

(** * What a run of events supplied to the controller *)

Module DebounceTrace.

Import Debounce.

Section Trace.

Variable Arg : Type.
Variable Err : Type.

(** The argument arrays the events pass to the debounced function. *)
Definition triggered (evs : list (event Arg Err)) : list (Args Arg) :=
  flat_map (fun ev => match ev with Trigger args => [args] | _ => [] end) evs.

(** The actions bound during the events. *)
Definition rebound (evs : list (event Arg Err)) : list (Callback Arg Err) :=
  flat_map (fun ev => match ev with Rebind cb => [cb] | _ => [] end) evs.

(** One when the hook holds a handle, zero when it does not. *)
Definition held (s : State Arg Err) : nat :=
  match timeoutRef s with
  | Some _ => 1
  | None => 0
  end.

(** Everything the state holds and has recorded comes from [A], the
    argument arrays supplied, and [B], the actions bound. *)
Definition sourced (A : list (Args Arg)) (B : list (Callback Arg Err))
  (s : State Arg Err) : Prop :=
  one_timer s /\
  (forall a, argsRef s = Some a -> In a A) /\
  In (callbackRef s) B /\
  (forall c, In c (calls s) ->
     In (call_args c) A /\ In (call_fn c) B /\
     call_result c = call_fn c (call_args c)).

End Trace.

(** A trigger whose timer fires and throws, then a flush. *)
Definition retried : list (event string string) :=
  [Trigger ["a"%string]; Elapse 300; Flush].

End DebounceTrace.

(** * What time does to the toast list *)

Module ToastTrace.

Import Toast.

Local Open Scope Z_scope.

Definition is_notify (ev : event) : bool :=
  match ev with
  | Notify _ _ _ _ => true
  | _ => false
  end.

(** A list of events in which [notify] is never called. *)
Definition no_notify (evs : list event) : Prop :=
  forallb (fun ev => negb (is_notify ev)) evs = true.

(** Some timer of [tms] due at [t] or before carries the id [i]. *)
Definition expires (t : Z) (tms : list (Z * string)) (i : string) : bool :=
  existsb (fun tm => (fst tm <=? t) && String.eqb (snd tm) i) tms.

(** No character of [s] is a dash. *)
Fixpoint dashless (s : string) : bool :=
  match s with
  | EmptyString => true
  | String c r => negb (Ascii.eqb c "-"%char) && dashless r
  end.

(** A provider showing one toast for 3 seconds, created at time 0. *)
Definition showing : State :=
  snd (notify "k3x9q2a" Success "done" (Some brief) mount).

End ToastTrace.

(** * The toast container

    [ToastContainer] of [src/components/ui/ToastContainer.tsx]: the toasts of
    the provider, grouped by position, one container per position in use. *)

Module ToastContainer.

Import Toast.

Definition position_name (p : ToastPosition) : string :=
  match p with
  | top_right => "top-right"
  | top_left => "top-left"
  | bottom_right => "bottom-right"
  | bottom_left => "bottom-left"
  | top_center => "top-center"
  | bottom_center => "bottom-center"
  end.

(** [===] on two positions. *)
Definition same_position (p q : ToastPosition) : bool :=
  match p, q with
  | top_right, top_right
  | top_left, top_left
  | bottom_right, bottom_right
  | bottom_left, bottom_left
  | top_center, top_center
  | bottom_center, bottom_center => true
  | _, _ => false
  end.

(** Lines 5-12. *)
Definition positionClasses (p : ToastPosition) : string :=
  match p with
  | top_right => "top-4 right-4"
  | top_left => "top-4 left-4"
  | bottom_right => "bottom-4 right-4"
  | bottom_left => "bottom-4 left-4"
  | top_center => "top-4 left-1/2 -translate-x-1/2"
  | bottom_center => "bottom-4 left-1/2 -translate-x-1/2"
  end.

(** [Record<ToastPosition, Toast[]>]: one array under each key, the keys in
    the order the object literal of lines 19-26 lists them. *)
Record Grouped := mkGrouped {
  at_top_right : list Toast;
  at_top_left : list Toast;
  at_bottom_right : list Toast;
  at_bottom_left : list Toast;
  at_top_center : list Toast;
  at_bottom_center : list Toast
}.

(** [grouped[p]] *)
Definition get (g : Grouped) (p : ToastPosition) : list Toast :=
  match p with
  | top_right => at_top_right g
  | top_left => at_top_left g
  | bottom_right => at_bottom_right g
  | bottom_left => at_bottom_left g
  | top_center => at_top_center g
  | bottom_center => at_bottom_center g
  end.

(** [grouped[p].push(toast)] *)
Definition push (p : ToastPosition) (toast : Toast) (g : Grouped) : Grouped :=
  match p with
  | top_right =>
      mkGrouped (at_top_right g ++ [toast]) (at_top_left g) (at_bottom_right g)
        (at_bottom_left g) (at_top_center g) (at_bottom_center g)
  | top_left =>
      mkGrouped (at_top_right g) (at_top_left g ++ [toast]) (at_bottom_right g)
        (at_bottom_left g) (at_top_center g) (at_bottom_center g)
  | bottom_right =>
      mkGrouped (at_top_right g) (at_top_left g) (at_bottom_right g ++ [toast])
        (at_bottom_left g) (at_top_center g) (at_bottom_center g)
  | bottom_left =>
      mkGrouped (at_top_right g) (at_top_left g) (at_bottom_right g)
        (at_bottom_left g ++ [toast]) (at_top_center g) (at_bottom_center g)
  | top_center =>
      mkGrouped (at_top_right g) (at_top_left g) (at_bottom_right g)
        (at_bottom_left g) (at_top_center g ++ [toast]) (at_bottom_center g)
  | bottom_center =>
      mkGrouped (at_top_right g) (at_top_left g) (at_bottom_right g)
        (at_bottom_left g) (at_top_center g) (at_bottom_center g ++ [toast])
  end.

(** Lines 18-33: [toasts.forEach] over the six empty arrays. *)
Definition groupedToasts (toasts : list Toast) : Grouped :=
  fold_left (fun grouped toast => push (position toast) toast grouped) toasts
    (mkGrouped [] [] [] [] [] []).

(** [Object.keys(groupedToasts)] *)
Definition keys : list ToastPosition :=
  [top_right; top_left; bottom_right; bottom_left; top_center; bottom_center].

(** [position.startsWith('bottom')] *)
Definition isBottom (p : ToastPosition) : bool :=
  String.prefix "bottom" (position_name p).

(** The [div] of lines 44-53; each child is a [Toast] element keyed by the
    toast's id. *)
Record Container := mkContainer {
  key : ToastPosition;
  className : string;
  children : list Toast
}.

(** Lines 37-55: [null] for a position without toasts. *)
Definition render (toasts : list Toast) : list (option Container) :=
  map (fun p =>
         let positionToasts := get (groupedToasts toasts) p in
         if Nat.eqb (List.length positionToasts) 0 then None
         else
           Some (mkContainer p
                   ("fixed z-50 flex flex-col gap-2 " ++ positionClasses p ++ " "
                    ++ (if isBottom p then "flex-col-reverse" else ""))%string
                   positionToasts))
      keys.

(** The toasts on screen: those of the containers rendered, in order. *)
Definition shown (toasts : list Toast) : list Toast :=
  flat_map (fun c => match c with Some c => children c | None => [] end)
    (render toasts).

End ToastContainer.

(** * The plain debounced callback

    [useDebounceCallback] of [src/hooks/useDebounce.ts], lines 44-77: two
    refs and the host timer service. Unlike the advanced hook the closure
    handed to [setTimeout] captures the arguments of its own call, so the
    timer table stores them. *)

Module DebounceCallback.

Section PlainHook.

Variable Arg : Type.
Variable Err : Type.

Record State := mkState {
  callbackRef : Debounce.Callback Arg Err;
  timeoutRef : option Debounce.handle;
  clock : nat;
  next_handle : Debounce.handle;
  timers : list (Debounce.handle * nat * Debounce.Args Arg);
  calls : list (Debounce.Call Arg Err);
  uncaught : list Err
}.

Definition is_handle (h : Debounce.handle)
  (t : Debounce.handle * nat * Debounce.Args Arg) : bool :=
  Pos.eqb (fst (fst t)) h.

(** [clearTimeout(h)] *)
Definition clearTimeout (h : Debounce.handle) (s : State) : State :=
  mkState (callbackRef s) (timeoutRef s) (clock s) (next_handle s)
    (filter (fun t => negb (is_handle h t)) (timers s)) (calls s) (uncaught s).

(** [setTimeout(() => { callbackRef.current(...args); }, delay)] *)
Definition setTimeout (delay : nat) (args : Debounce.Args Arg) (s : State)
  : Debounce.handle * State :=
  let h := next_handle s in
  (h, mkState (callbackRef s) (timeoutRef s) (clock s) (Pos.succ h)
        (timers s ++ [(h, clock s + delay, args)]) (calls s) (uncaught s)).

(** Lines 51-53. *)
Definition rebind (cb : Debounce.Callback Arg Err) (s : State) : State :=
  mkState cb (timeoutRef s) (clock s) (next_handle s) (timers s) (calls s)
    (uncaught s).

(** Lines 55-66. *)
Definition debouncedCallback (delay : nat) (args : Debounce.Args Arg)
  (s : State) : State :=
  let s1 :=
    match timeoutRef s with
    | Some h => clearTimeout h s
    | None => s
    end in
  let (h, s2) := setTimeout delay args s1 in
  mkState (callbackRef s2) (Some h) (clock s2) (next_handle s2) (timers s2)
    (calls s2) (uncaught s2).

(** Lines 61-63: the closure of one call, run by the host. *)
Definition on_timeout (args : Debounce.Args Arg) (s : State)
  : State * Debounce.completion Err :=
  let r := callbackRef s args in
  (mkState (callbackRef s) (timeoutRef s) (clock s) (next_handle s) (timers s)
     (calls s ++ [Debounce.mkCall (callbackRef s) args (clock s) r])
     (uncaught s),
   r).

(** Lines 68-74. *)
Definition unmount (s : State) : State :=
  match timeoutRef s with
  | Some h => clearTimeout h s
  | None => s
  end.

Definition mount (cb : Debounce.Callback Arg Err) : State :=
  mkState cb None 0 1%positive [] [] [].

(** The host runs a scheduled timer, as for the advanced hook. *)
Definition fire (h : Debounce.handle) (s : State) : State :=
  match find (is_handle h) (timers s) with
  | None => s
  | Some (_, due, args) =>
      let s1 :=
        mkState (callbackRef s) (timeoutRef s) (Nat.max (clock s) due)
          (next_handle s) (filter (fun t => negb (is_handle h t)) (timers s))
          (calls s) (uncaught s) in
      match on_timeout args s1 with
      | (s2, Debounce.Returned) => s2
      | (s2, Debounce.Threw e) =>
          mkState (callbackRef s2) (timeoutRef s2) (clock s2) (next_handle s2)
            (timers s2) (calls s2) (uncaught s2 ++ [e])
      end
  end.

Fixpoint next_due (t : nat) (l : list (Debounce.handle * nat * Debounce.Args Arg))
  : option (Debounce.handle * nat) :=
  match l with
  | [] => None
  | (h, d, _) :: r =>
      match next_due t r with
      | Some (h', d') => if d <=? d' then Some (h, d) else Some (h', d')
      | None => if d <=? t then Some (h, d) else None
      end
  end.

Fixpoint run_due (fuel : nat) (t : nat) (s : State) : State :=
  match fuel with
  | O => s
  | S fuel' =>
      match next_due t (timers s) with
      | Some (h, _) => run_due fuel' t (fire h s)
      | None => s
      end
  end.

Definition advance (t : nat) (s : State) : State :=
  let s1 := run_due (List.length (timers s)) t s in
  mkState (callbackRef s1) (timeoutRef s1) (Nat.max (clock s1) t)
    (next_handle s1) (timers s1) (calls s1) (uncaught s1).

Inductive event : Type :=
| Trigger (args : Debounce.Args Arg)
| Elapse (t : nat)
| Rebind (cb : Debounce.Callback Arg Err).

Definition step (delay : nat) (ev : event) (s : State) : State :=
  match ev with
  | Trigger args => debouncedCallback delay args s
  | Elapse t => advance t s
  | Rebind cb => rebind cb s
  end.

Definition run (delay : nat) (evs : list event) (s : State) : State :=
  fold_left (fun s ev => step delay ev s) evs s.

(** Calls of the debounced callback with the time of each. *)
Definition burst_events (l : list (nat * Debounce.Args Arg)) : list event :=
  flat_map (fun c => [Elapse (fst c); Trigger (snd c)]) l.

(** The same event, sent to the advanced hook. *)
Definition advanced (ev : event) : Debounce.event Arg Err :=
  match ev with
  | Trigger args => Debounce.Trigger args
  | Elapse t => Debounce.Elapse t
  | Rebind cb => Debounce.Rebind cb
  end.

(** A controller of the advanced hook and one of this hook that have
    seen the same events: same action, clock and records, and the same timer
    pending, with the arguments the advanced hook keeps in [argsRef]. *)
Definition alike (sa : Debounce.State Arg Err) (s : State) : Prop :=
  Debounce.callbackRef sa = callbackRef s /\
  Debounce.clock sa = clock s /\
  Debounce.next_handle sa = next_handle s /\
  Debounce.calls sa = calls s /\
  Debounce.uncaught sa = uncaught s /\
  ((Debounce.timers sa = [] /\ timers s = []) \/
   (exists h d args,
      Debounce.timers sa = [(h, d)] /\ timers s = [(h, d, args)] /\
      Debounce.timeoutRef sa = Some h /\ timeoutRef s = Some h /\
      Debounce.argsRef sa = Some args)).

End PlainHook.

Arguments Trigger {Arg Err} args.
Arguments Elapse {Arg Err} t.
Arguments Rebind {Arg Err} cb.
Arguments burst_events {Arg Err} l.

(** Delay 300: calls with "a" at 0, "b" at 100 and "c" at 150, then time
    passes until 450. *)
Definition three_calls_then_wait : list (event string string) :=
  [Elapse 0; Trigger ["a"%string]; Elapse 100; Trigger ["b"%string];
   Elapse 150; Trigger ["c"%string]; Elapse 450].

End DebounceCallback.

(** * The debounced value

    [useDebounce] of [src/hooks/useDebounce.ts], lines 15-29: one state cell
    and one effect with the dependencies [[value, delay]]. React runs the
    effect after the first render and after every render in which a
    dependency differs (by [Object.is]) from the one of the previous run,
    calling the cleanup of the previous run first; at unmount it calls the
    last cleanup. *)

Module DebounceValue.

Section ValueHook.

Variable T : Type.

(** [Object.is] on two values. *)
Variable same : T -> T -> bool.

(** [debouncedValue] is the state cell; [deps] are the dependencies of the
    last run of the effect and [timer] the handle its cleanup closed over;
    then the host: the clock and the timers scheduled, each with the value
    its closure [() => setDebouncedValue(value)] captured. *)
Record State := mkState {
  debouncedValue : T;
  deps : option (T * nat);
  timer : option Debounce.handle;
  clock : nat;
  next_handle : Debounce.handle;
  timers : list (Debounce.handle * nat * T)
}.

Definition is_handle (h : Debounce.handle) (t : Debounce.handle * nat * T)
  : bool :=
  Pos.eqb (fst (fst t)) h.

Definition clearTimeout (h : Debounce.handle) (s : State) : State :=
  mkState (debouncedValue s) (deps s) (timer s) (clock s) (next_handle s)
    (filter (fun t => negb (is_handle h t)) (timers s)).

(** Lines 19-21: the body of the effect. *)
Definition effect (value : T) (delay : nat) (s : State) : State :=
  let h := next_handle s in
  mkState (debouncedValue s) (Some (value, delay)) (Some h) (clock s)
    (Pos.succ h) (timers s ++ [(h, clock s + delay, value)]).

(** Lines 23-25: the cleanup the effect returned. *)
Definition cleanup (s : State) : State :=
  match timer s with
  | Some h => clearTimeout h s
  | None => s
  end.

(** No dependency differs from the last run of the effect. *)
Definition unchanged (value : T) (delay : nat) (s : State) : bool :=
  match deps s with
  | Some (v, d) => same v value && Nat.eqb d delay
  | None => false
  end.

(** A render after the first, with the props [value] and [delay]. *)
Definition render (value : T) (delay : nat) (s : State) : State :=
  if unchanged value delay s then s else effect value delay (cleanup s).

(** The first render, [useState(value)], and its effect. *)
Definition mount (value : T) (delay : nat) : State :=
  effect value delay (mkState value None None 0 1%positive []).

Definition unmount (s : State) : State := cleanup s.

(** The host runs a scheduled timer: [setDebouncedValue(value)]. *)
Definition fire (h : Debounce.handle) (s : State) : State :=
  match find (is_handle h) (timers s) with
  | None => s
  | Some (_, due, value) =>
      mkState value (deps s) (timer s) (Nat.max (clock s) due) (next_handle s)
        (filter (fun t => negb (is_handle h t)) (timers s))
  end.

Fixpoint next_due (t : nat) (l : list (Debounce.handle * nat * T))
  : option (Debounce.handle * nat) :=
  match l with
  | [] => None
  | (h, d, _) :: r =>
      match next_due t r with
      | Some (h', d') => if d <=? d' then Some (h, d) else Some (h', d')
      | None => if d <=? t then Some (h, d) else None
      end
  end.

Fixpoint run_due (fuel : nat) (t : nat) (s : State) : State :=
  match fuel with
  | O => s
  | S fuel' =>
      match next_due t (timers s) with
      | Some (h, _) => run_due fuel' t (fire h s)
      | None => s
      end
  end.

Definition advance (t : nat) (s : State) : State :=
  let s1 := run_due (List.length (timers s)) t s in
  mkState (debouncedValue s1) (deps s1) (timer s1) (Nat.max (clock s1) t)
    (next_handle s1) (timers s1).

(** The owner renders again with a value, or time passes. *)
Inductive event : Type :=
| Render (value : T)
| Elapse (t : nat).

Definition step (delay : nat) (ev : event) (s : State) : State :=
  match ev with
  | Render value => render value delay s
  | Elapse t => advance t s
  end.

Definition run (delay : nat) (evs : list event) (s : State) : State :=
  fold_left (fun s ev => step delay ev s) evs s.

(** Renders with a new value, each at its time. *)
Definition changes (l : list (nat * T)) : list event :=
  flat_map (fun c => [Elapse (fst c); Render (snd c)]) l.

(** Every render of [l] brings a value that differs from the one before
    it and comes less than [delay] after the render before it. *)
Fixpoint changing (delay : nat) (prev : nat) (v : T) (l : list (nat * T))
  : Prop :=
  match l with
  | [] => True
  | c :: r =>
      prev <= fst c /\ fst c < prev + delay /\ same v (snd c) = false /\
      changing delay (fst c) (snd c) r
  end.

(** Renders that bring the value [v] again, and time passing. *)
Definition repeating (v : T) (evs : list event) : Prop :=
  Forall (fun ev => match ev with
                    | Render v' => same v v' = true
                    | Elapse _ => True
                    end) evs.

(** The effect last ran at [t] with [v], and its timer is pending. *)
Definition pending (delay : nat) (t : nat) (v : T) (s : State) : Prop :=
  exists h,
    timers s = [(h, t + delay, v)] /\ timer s = Some h /\
    deps s = Some (v, delay) /\ clock s = t.

End ValueHook.

Arguments Render {T} value.
Arguments Elapse {T} t.

End DebounceValue.

(** * The theme provider

    [ThemeProvider] of [src/contexts/ThemeContext.tsx]: the chosen theme, kept
    in [localStorage]; the theme of the system, read from a media query; and
    the class the two resolve to, put on the document's root element. *)

Module Theme.

(** ['light' | 'dark'] *)
Inductive ResolvedTheme : Type := light | dark.

(** ['light' | 'dark' | 'system']: a resolved theme, or ['system']. *)
Inductive Theme : Type :=
| fixed (r : ResolvedTheme)
| system.

Definition resolved_name (r : ResolvedTheme) : string :=
  match r with
  | light => "light"
  | dark => "dark"
  end.

(** The string a theme is. *)
Definition theme_name (t : Theme) : string :=
  match t with
  | fixed r => resolved_name r
  | system => "system"
  end.

Definition STORAGE_KEY : string := "app-theme".

(** [localStorage]: [getItem] gives [null] for a key without entry. *)
Definition Storage := string -> option string.

Definition setItem (k v : string) (st : Storage) : Storage :=
  fun k' => if String.eqb k' k then Some v else st k'.

(** Lines 26-31, in a browser; [matches] is what the media query
    [(prefers-color-scheme: dark)] reports. *)
Definition getSystemTheme (matches : bool) : ResolvedTheme :=
  if matches then dark else light.

(** Lines 33-40, in a browser. *)
Definition getStoredTheme (st : Storage) : Theme :=
  match st STORAGE_KEY with
  | Some stored =>
      if String.eqb stored "light" then fixed light
      else if String.eqb stored "dark" then fixed dark
      else if String.eqb stored "system" then system
      else system
  | None => system
  end.

(** [theme] is the state cell, [systemTheme] the snapshot
    [useSyncExternalStore] holds, [applied] the dependency of the last run of
    the effect of lines 65-69, [classList] the classes of the root element in
    their order. *)
Record State := mkState {
  theme : Theme;
  systemTheme : ResolvedTheme;
  applied : option ResolvedTheme;
  storage : Storage;
  classList : list string
}.

(** Lines 60-62. *)
Definition resolvedTheme (s : State) : ResolvedTheme :=
  match theme s with
  | system => systemTheme s
  | fixed r => r
  end.

(** [classList.remove(...)]: the tokens go, the others keep their order. *)
Definition remove_tokens (tokens : list string) (l : list string)
  : list string :=
  filter (fun c => negb (existsb (String.eqb c) tokens)) l.

(** [classList.add(token)]: appended unless already there. *)
Definition add_token (token : string) (l : list string) : list string :=
  if existsb (String.eqb token) l then l else l ++ [token].

(** Lines 65-69, run when [resolvedTheme] differs from the last run. *)
Definition apply_theme (s : State) : State :=
  match applied s with
  | Some r =>
      if String.eqb (resolved_name r) (resolved_name (resolvedTheme s)) then s
      else
        mkState (theme s) (systemTheme s) (Some (resolvedTheme s)) (storage s)
          (add_token (resolved_name (resolvedTheme s))
             (remove_tokens ["light"; "dark"]%string (classList s)))
  | None =>
      mkState (theme s) (systemTheme s) (Some (resolvedTheme s)) (storage s)
        (add_token (resolved_name (resolvedTheme s))
           (remove_tokens ["light"; "dark"]%string (classList s)))
  end.

(** Lines 71-74; [localStorage] accepts the entry. *)
Definition setTheme (newTheme : Theme) (s : State) : State :=
  mkState newTheme (systemTheme s) (applied s)
    (setItem STORAGE_KEY (theme_name newTheme) (storage s)) (classList s).

(** Lines 76-78. *)
Definition toggleTheme (s : State) : State :=
  setTheme (match resolvedTheme s with
            | light => fixed dark
            | dark => fixed light
            end) s.

(** The media query fires [change]: the snapshot is read again. *)
Definition systemChanged (matches : bool) (s : State) : State :=
  mkState (theme s) (getSystemTheme matches) (applied s) (storage s)
    (classList s).

(** The provider mounts in a page with the given storage, system
    preference and root classes: [useState(getStoredTheme)], then the
    effect. *)
Definition mount (st : Storage) (matches : bool) (classes : list string)
  : State :=
  apply_theme
    (mkState (getStoredTheme st) (getSystemTheme matches) None st classes).

Inductive event : Type :=
| SetTheme (t : Theme)
| Toggle
| SystemChange (matches : bool).

(** A callback runs, the provider renders again, and the effect runs if
    its dependency changed. *)
Definition step (ev : event) (s : State) : State :=
  apply_theme
    (match ev with
     | SetTheme t => setTheme t s
     | Toggle => toggleTheme s
     | SystemChange matches => systemChanged matches s
     end).

Definition run (evs : list event) (s : State) : State :=
  fold_left (fun s ev => step ev s) evs s.

Definition opposite (r : ResolvedTheme) : ResolvedTheme :=
  match r with
  | light => dark
  | dark => light
  end.

(** The class list carries the class of [r] and not the other one. *)
Definition shows (r : ResolvedTheme) (l : list string) : Prop :=
  In (resolved_name r) l /\ ~ In (resolved_name (opposite r)) l.

(** Apart from the two theme classes, [l] and [l'] hold the same classes. *)
Definition same_others (l l' : list string) : Prop :=
  forall c, c <> "light"%string -> c <> "dark"%string -> (In c l <-> In c l').

(** A page with nothing stored, a light system and two classes. *)
Definition fresh_page : State :=
  mount (fun _ => None) false ["app"; "dark"]%string.

End Theme.

(** * The storage hooks

    [useLocalStorage] and [useSessionStorage] of [src/hooks/useStorage.ts], in
    a browser ([window] is defined). [JSON.parse] and [JSON.stringify] are the
    host's; the hook is modelled over them. *)

Module StorageHook.

Section Hook.

(** The type of the stored value. *)
Variable T : Type.

(** [JSON.parse]: [None] when it throws. *)
Variable parse : string -> option T.

(** [JSON.stringify] on a value of type [T], for the values it gives a
    string for. *)
Variable stringify : T -> string.

(** The key and the initial value the hook was called with. *)
Variable key : string.
Variable initialValue : T.

(** A [Storage] object: [getItem] gives [null] for a key without entry. *)
Definition Store := string -> option string.

Definition setItem (k v : string) (st : Store) : Store :=
  fun k' => if String.eqb k' k then Some v else st k'.

Definition removeItem (k : string) (st : Store) : Store :=
  fun k' => if String.eqb k' k then None else st k'.

(** [storedValue] is the state cell; [captured] is the [storedValue] of
    the render that made the [setValue] the caller holds (line 38 reads it
    from the closure, and [useCallback] makes a new closure only on a render,
    line 56); [storage] the storage object the hook uses; [writable] tells
    whether the host accepts [setItem] (it throws when the quota is
    exceeded); [warnings] are the calls of [console.warn] the setters make;
    [dispatched] the events the hook has sent. *)
Record State := mkState {
  storedValue : T;
  captured : T;
  storage : Store;
  writable : bool;
  warnings : list string;
  dispatched : list (string * option string)
}.

(** The first argument of [console.warn]: [Error <what> key "<key>":]. *)
Definition warning (what : string) : string :=
  ("Error " ++ what ++ " key " ++ String (Ascii.ascii_of_nat 34) key
   ++ String (Ascii.ascii_of_nat 34) ":")%string.

(** [SetValue<T>]: a value, or a function of the previous value. *)
Inductive SetValue : Type :=
| Value (v : T)
| Updater (f : T -> T).

(** Lines 17-29 and 108-120: an empty item is falsy; an item that does
    not parse gives the initial value (and a warning, not recorded here). *)
Definition readValue (st : Store) : T :=
  match st key with
  | Some item =>
      if String.eqb item EmptyString then initialValue
      else
        match parse item with
        | Some v => v
        | None => initialValue
        end
  | None => initialValue
  end.

(** Lines 79-89: the listener for [storage] events. *)
Definition handleStorageChange (event_key : option string)
  (newValue : option string) (s : State) : State :=
  match event_key, newValue with
  | Some k, Some item =>
      if String.eqb k key then
        mkState (match parse item with
                 | Some v => v
                 | None => initialValue
                 end)
          (captured s) (storage s) (writable s) (warnings s) (dispatched s)
      else s
  | Some k, None =>
      if String.eqb k key then
        mkState initialValue (captured s) (storage s) (writable s) (warnings s)
          (dispatched s)
      else s
  | None, _ => s
  end.

(** [window.dispatchEvent(new StorageEvent('storage', ...))]: the hook's
    own listener runs before the call returns. *)
Definition dispatchEvent (newValue : option string) (s : State) : State :=
  handleStorageChange (Some key) newValue
    (mkState (storedValue s) (captured s) (storage s) (writable s) (warnings s)
       (dispatched s ++ [(key, newValue)])).

(** Line 38 (and 128): an updater is applied to the [storedValue] the
    closure captured, not to the cell. *)
Definition valueToStore (value : SetValue) (s : State) : T :=
  match value with
  | Value v => v
  | Updater f => f (captured s)
  end.

(** Lines 34-57. *)
Definition setValue (value : SetValue) (s : State) : State :=
  let v := valueToStore value s in
  let s1 :=
    mkState v (captured s) (storage s) (writable s) (warnings s) (dispatched s)
  in
  if writable s then
    dispatchEvent (Some (stringify v))
      (mkState (storedValue s1) (captured s1)
         (setItem key (stringify v) (storage s1))
         (writable s1) (warnings s1) (dispatched s1))
  else
    mkState (storedValue s1) (captured s1) (storage s1) (writable s1)
      (warnings s1 ++ [warning "setting localStorage"])
      (dispatched s1).

(** Lines 60-75. *)
Definition removeValue (s : State) : State :=
  dispatchEvent None
    (mkState initialValue (captured s) (removeItem key (storage s)) (writable s)
       (warnings s) (dispatched s)).

(** Lines 124-140: the session hook sends no event. *)
Definition sessionSetValue (value : SetValue) (s : State) : State :=
  let v := valueToStore value s in
  let s1 :=
    mkState v (captured s) (storage s) (writable s) (warnings s) (dispatched s)
  in
  if writable s then
    mkState (storedValue s1) (captured s1)
      (setItem key (stringify v) (storage s1))
      (writable s1) (warnings s1) (dispatched s1)
  else
    mkState (storedValue s1) (captured s1) (storage s1) (writable s1)
      (warnings s1 ++ [warning "setting sessionStorage"])
      (dispatched s1).

(** Lines 142-151. *)
Definition sessionRemoveValue (s : State) : State :=
  mkState initialValue (captured s) (removeItem key (storage s)) (writable s)
    (warnings s) (dispatched s).

(** [useState(readValue)] on the first render, whose [setValue] captures
    the value read. *)
Definition mount (st : Store) (w : bool) : State :=
  mkState (readValue st) (readValue st) st w [] [].

(** The component renders again and the caller takes the [setValue] of
    that render: it captures the cell as it is now. *)
Definition rerender (s : State) : State :=
  mkState (storedValue s) (storedValue s) (storage s) (writable s) (warnings s)
    (dispatched s).

(** Another tab writes an entry ([Some item]) or removes one ([None]);
    the browser then delivers the [storage] event to this tab. *)
Definition otherTab (k : string) (newValue : option string) (s : State)
  : State :=
  handleStorageChange (Some k) newValue
    (mkState (storedValue s) (captured s)
       (match newValue with
        | Some item => setItem k item (storage s)
        | None => removeItem k (storage s)
        end)
       (writable s) (warnings s) (dispatched s)).

(** Another tab calls [localStorage.clear()]: every entry goes, and the
    event the browser delivers has [null] for its key and its new value. *)
Definition otherTabClear (s : State) : State :=
  handleStorageChange None None
    (mkState (storedValue s) (captured s) (fun _ => None) (writable s)
       (warnings s) (dispatched s)).

Inductive event : Type :=
| SetValueTo (value : SetValue)
| RemoveValue
| Rerender
| OtherTab (k : string) (newValue : option string)
| OtherTabClear.

Definition step (ev : event) (s : State) : State :=
  match ev with
  | SetValueTo value => setValue value s
  | RemoveValue => removeValue s
  | Rerender => rerender s
  | OtherTab k newValue => otherTab k newValue s
  | OtherTabClear => otherTabClear s
  end.



Definition run (evs : list event) (s : State) : State :=
  fold_left (fun s ev => step ev s) evs s.

End Hook.

Arguments Value {T} v.
Arguments Updater {T} f.
Arguments RemoveValue {T}.
Arguments Rerender {T}.
Arguments OtherTab {T} k newValue.
Arguments OtherTabClear {T}.

(** A toy [JSON] for numbers up to nine: one digit. *)
Definition digit_stringify (n : nat) : string :=
  String (Ascii.ascii_of_nat (48 + n)) EmptyString.

Definition digit_parse (s : string) : option nat :=
  match s with
  | String c EmptyString =>
      let n := Ascii.nat_of_ascii c in
      if (48 <=? n) && (n <=? 57) then Some (n - 48) else None
  | _ => None
  end.

End StorageHook.

(** * The API client and the retry rule

    [apiClient] and [api] of [src/lib/api-client.ts], and the [retry] option
    of [src/lib/query-client.ts]. The network ([fetch]), the encoding of
    query parameters ([URLSearchParams]) and [JSON.stringify] are the host's;
    the client is modelled over them. A promise is modelled by the way it
    settles. *)

Module Api.

Section Client.

(** Parsed response bodies; anything thrown that is not an [ApiError] (a
    network failure, a body that is not JSON); request payloads; and what the
    fields of [RequestInit] hold that the client only passes on. *)
Variable Json : Type.
Variable Failure : Type.
Variable Data : Type.
Variable Others : Type.

(** [config.apiBaseUrl] *)
Variable apiBaseUrl : string.

(** [new URLSearchParams(params).toString()] *)
Variable encode : list (string * string) -> string.

(** Truthiness of a payload, and [JSON.stringify] on it. *)
Variable truthy : Data -> bool.
Variable stringify : Data -> string.

(** Lines 7-19. *)
Record ApiError := mkApiError {
  message : string;
  name : string;
  status : Z;
  statusText : string;
  data : option Json
}.

Definition newApiError (st : Z) (text : string) (d : option Json) : ApiError :=
  mkApiError
    ("API Error: " ++ NilZero.string_of_int (Z.to_int st) ++ " " ++ text)%string
    "ApiError" st text d.

Inductive Thrown : Type :=
| AnApiError (e : ApiError)
| Another (f : Failure).

(** How the promise [apiClient] returns settles. *)
Inductive Outcome : Type :=
| Resolved (v : Json)
| Rejected (e : Thrown).

(** What the client reads of a [Response]; [json] is how
    [response.json()] settles. *)
Record Response := mkResponse {
  ok : bool;
  res_status : Z;
  res_statusText : string;
  json : Json + Failure
}.

(** What a property of the [headers] object holds: a string, or one
    [[name, value]] pair of an array of pairs. *)
Inductive Val : Type :=
| Text (s : string)
| Entry (p : string * string).

(** A plain object, read by property name. *)
Definition Obj := string -> option Val.

(** [{ [k]: v }] *)
Definition single (k : string) (v : Val) : Obj :=
  fun k' => if String.eqb k' k then Some v else None.

(** [{ ...base, ...extra }] *)
Definition spread (base extra : Obj) : Obj :=
  fun k =>
    match extra k with
    | Some v => Some v
    | None => base k
    end.

(** [HeadersInit]: a record of strings, a [Headers] instance with its
    entries, or an array of [[name, value]] pairs. *)
Inductive HeadersInit : Type :=
| Plain (o : string -> option string)
| Instance (entries : list (string * string))
| Pairs (l : list (string * string)).

(** The property name of the array index [i]. *)
Definition index_key (i : nat) : string :=
  NilZero.string_of_uint (Nat.to_uint i).

(** The array index a property name stands for, if any. *)
Definition index_of (k : string) : option nat :=
  match NilZero.uint_of_string k with
  | Some u =>
      if String.eqb (index_key (Nat.of_uint u)) k then Some (Nat.of_uint u)
      else None
  | None => None
  end.

(** What a spread copies, the own enumerable properties: those of a
    record; none of a [Headers] instance, which keeps its entries in an
    internal list; the indices of an array. *)
Definition own (h : option HeadersInit) : Obj :=
  match h with
  | None => fun _ => None
  | Some (Plain o) => fun k => option_map Text (o k)
  | Some (Instance _) => fun _ => None
  | Some (Pairs l) =>
      fun k =>
        match index_of k with
        | Some i => option_map Entry (nth_error l i)
        | None => None
        end
  end.

(** [BodyInit]: a string, or a body of another kind (a [Blob], a
    [FormData], ...). *)
Inductive BodyInit : Type :=
| TextBody (s : string)
| OtherBody (b : Others).

(** [RequestOptions]: every field may be left out; [others] are the
    remaining fields of [RequestInit] that are given, by name. *)
Record RequestOptions := mkOptions {
  params : option (list (string * string));
  method : option string;
  body : option BodyInit;
  credentials : option string;
  headers : option HeadersInit;
  others : list (string * Others)
}.

(** What is handed to [fetch]. *)
Record Request := mkRequest {
  url : string;
  req_method : option string;
  req_body : option BodyInit;
  req_credentials : string;
  req_headers : Obj;
  req_others : list (string * Others)
}.

(** Lines 25-40: the URL and the init object. *)
Definition request (endpoint : string) (options : RequestOptions) : Request :=
  mkRequest
    (apiBaseUrl ++ endpoint ++
     match params options with
     | Some p => "?" ++ encode p
     | None => ""
     end)%string
    (method options) (body options) "include"
    (spread (single "Content-Type" (Text "application/json"))
       (own (headers options)))
    (others options).

(** The network: [fetch] resolves with a response or rejects. *)
Variable fetch : Request -> Response + Failure.

(** Lines 33 and 42-47: what the client makes of the way [fetch]
    settled. *)
Definition settle (fetched : Response + Failure) : Outcome :=
  match fetched with
  | inr f => Rejected (Another f)
  | inl response =>
      if negb (ok response) then
        Rejected
          (AnApiError
             (newApiError (res_status response) (res_statusText response)
                (match json response with
                 | inl d => Some d
                 | inr _ => None
                 end)))
      else
        match json response with
        | inl v => Resolved v
        | inr f => Rejected (Another f)
        end
  end.

(** Lines 21-48. *)
Definition apiClient (endpoint : string) (options : RequestOptions) : Outcome :=
  settle (fetch (request endpoint options)).

(** [...options] for the optional argument of a verb: nothing when it is
    left out. *)
Definition given (options : option RequestOptions) : RequestOptions :=
  match options with
  | Some o => o
  | None => mkOptions None None None None None []
  end.

(** [{ ...options, method, body }] *)
Definition with_method (m : string) (b : option BodyInit)
  (options : RequestOptions) : RequestOptions :=
  mkOptions (params options) (Some m) b (credentials options)
    (headers options) (others options).

(** [data ? JSON.stringify(data) : undefined] *)
Definition payload (d : option Data) : option BodyInit :=
  match d with
  | Some x => if truthy x then Some (TextBody (stringify x)) else None
  | None => None
  end.

(** Lines 50-70. *)
Definition api_get (endpoint : string) (options : option RequestOptions)
  : Outcome :=
  apiClient endpoint (with_method "GET" (body (given options)) (given options)).

Definition api_post (endpoint : string) (d : option Data)
  (options : option RequestOptions) : Outcome :=
  apiClient endpoint (with_method "POST" (payload d) (given options)).

Definition api_put (endpoint : string) (d : option Data)
  (options : option RequestOptions) : Outcome :=
  apiClient endpoint (with_method "PUT" (payload d) (given options)).

Definition api_delete (endpoint : string) (options : option RequestOptions)
  : Outcome :=
  apiClient endpoint (with_method "DELETE" (body (given options)) (given options)).

(** The [headers] object of a request for the caller's [headers]: a
    record keeps all its entries and gets [application/json] as its
    [Content-Type] when it has none; without headers, and with a [Headers]
    instance, the object holds the default [Content-Type] and nothing else;
    an array of pairs gives the default [Content-Type] and one property per
    index, holding the pair. *)
Definition headers_sent (h : option HeadersInit) (hs : Obj) : Prop :=
  match h with
  | Some (Plain o) =>
      (forall k v, o k = Some v -> hs k = Some (Text v)) /\
      (o "Content-Type"%string = None ->
       hs "Content-Type"%string = Some (Text "application/json")) /\
      (forall k, o k = None -> k <> "Content-Type"%string -> hs k = None)
  | Some (Pairs l) =>
      hs "Content-Type"%string = Some (Text "application/json") /\
      (forall i, hs (index_key i) = option_map Entry (nth_error l i)) /\
      (forall k, index_of k = None -> k <> "Content-Type"%string -> hs k = None)
  | _ =>
      forall k,
        hs k = if String.eqb k "Content-Type" then Some (Text "application/json")
               else None
  end.

(** The request for [endpoint] with method [m] and body [b], everything
    else as the caller's options [o] have it. *)
Definition sends (endpoint m : string) (b : option BodyInit)
  (o : RequestOptions) (r : Request) : Prop :=
  url r =
    (apiBaseUrl ++ endpoint ++
     match params o with
     | Some p => "?" ++ encode p
     | None => ""
     end)%string /\
  req_method r = Some m /\
  req_body r = b /\
  req_credentials r = "include"%string /\
  headers_sent (headers o) (req_headers r) /\
  req_others r = others o.

(** [src/lib/query-client.ts], lines 9-14. *)
Definition retry (failureCount : nat) (error : Thrown) : bool :=
  match error with
  | AnApiError e =>
      if (status e =? 401)%Z || (status e =? 403)%Z then false
      else failureCount <? 3
  | Another _ => failureCount <? 3
  end.

End Client.

End Api.

(** * Facts about the debounce controller *)

Unset Implicit Arguments.

Module DebounceFacts.

Import Debounce.

Ltac unfold_stmts :=
  unfold debounced, cancel, flush, on_timeout, unmount, rebind, andThen,
    assign_timeoutRef, assign_argsRef, setIsPending, clearTimeout,
    call_callback, setTimeout, skip.

Ltac unfold_sets :=
  unfold set_callbackRef, set_timeoutRef, set_argsRef, set_isPending,
    set_clock, set_next_handle, set_timers, set_calls, set_uncaught.

Section Facts.

Variable Arg : Type.
Variable Err : Type.

Abbreviation State := (State Arg Err).
Abbreviation Callback := (Callback Arg Err).
Abbreviation event := (event Arg Err).

(** ** The host *)

Lemma is_handle_same (h : handle) (d : nat) : is_handle h (h, d) = true.
Proof. unfold is_handle; simpl; apply Pos.eqb_refl. Qed.

Lemma on_timeout_timers (s : State) :
  timers (fst (on_timeout s)) = timers s.
Proof.
  unfold_stmts; destruct (argsRef s) as [args|]; simpl; auto.
  destruct (callbackRef s args); reflexivity.
Qed.

Lemma fire_sole (s : State) (h : handle) (d : nat) :
  timers s = [(h, d)] ->
  fire h s =
    let s1 := set_clock (Nat.max (clock s) d) (set_timers [] s) in
    match on_timeout s1 with
    | (s2, Returned) => s2
    | (s2, Threw e) => set_uncaught (uncaught s2 ++ [e]) s2
    end.
Proof.
  intros H; unfold fire; rewrite H; simpl.
  rewrite is_handle_same; reflexivity.
Qed.

Lemma fire_sole_timers (s : State) (h : handle) (d : nat) :
  timers s = [(h, d)] -> timers (fire h s) = [].
Proof.
  intros H; rewrite (fire_sole s h d H); cbv zeta.
  pose proof (on_timeout_timers
                (set_clock (Nat.max (clock s) d) (set_timers [] s))) as T.
  destruct (on_timeout _) as [s2 [|e]]; simpl in *; exact T.
Qed.

Lemma advance_nothing_scheduled (t : nat) (s : State) :
  timers s = [] -> advance t s = set_clock (Nat.max (clock s) t) s.
Proof. intros H; unfold advance; rewrite H; reflexivity. Qed.

Lemma advance_not_due (t : nat) (s : State) (h : handle) (d : nat) :
  timers s = [(h, d)] -> t < d ->
  advance t s = set_clock (Nat.max (clock s) t) s.
Proof.
  intros H L; unfold advance; rewrite H; simpl; rewrite H; simpl.
  destruct (Nat.leb_spec d t); [lia | reflexivity].
Qed.

Lemma advance_due (t : nat) (s : State) (h : handle) (d : nat) :
  timers s = [(h, d)] -> d <= t ->
  advance t s = set_clock (Nat.max (clock (fire h s)) t) (fire h s).
Proof.
  intros H L; unfold advance; rewrite H; simpl; rewrite H; simpl.
  destruct (Nat.leb_spec d t); [reflexivity | lia].
Qed.

(** ** At most one timer *)

Lemma one_timer_cases (s : State) :
  one_timer s ->
  timers s = [] \/ exists h d, timers s = [(h, d)] /\ timeoutRef s = Some h.
Proof.
  unfold one_timer; destruct (timers s) as [|[h d] [|x r]]; intros H.
  - left; reflexivity.
  - right; exists h, d; auto.
  - contradiction.
Qed.

Lemma clear_own_timer (s : State) (h : handle) :
  one_timer s -> timeoutRef s = Some h ->
  filter (fun t => negb (is_handle h t)) (timers s) = [].
Proof.
  intros W T; destruct (one_timer_cases s W) as [E | (h' & d & E & T')].
  - rewrite E; reflexivity.
  - rewrite E; simpl. assert (h' = h) by congruence; subst.
    rewrite is_handle_same; reflexivity.
Qed.

Lemma no_handle_no_timer (s : State) :
  one_timer s -> timeoutRef s = None -> timers s = [].
Proof.
  intros W T; destruct (one_timer_cases s W) as [E | (h' & d & E & T')]; auto.
  congruence.
Qed.

Lemma debounced_timers (delay : nat) (args : Args Arg) (s : State) :
  one_timer s ->
  timers (fst (debounced delay args s)) = [(next_handle s, clock s + delay)].
Proof.
  intros W; unfold_stmts; simpl.
  destruct (timeoutRef s) as [h|] eqn:T; simpl.
  - rewrite (clear_own_timer s h W T); reflexivity.
  - rewrite (no_handle_no_timer s W T); reflexivity.
Qed.

Lemma debounced_fields (delay : nat) (args : Args Arg) (s : State) :
  let s' := fst (debounced delay args s) in
  timeoutRef s' = Some (next_handle s) /\
  argsRef s' = Some args /\
  isPending s' = true /\
  clock s' = clock s /\
  calls s' = calls s /\
  callbackRef s' = callbackRef s /\
  uncaught s' = uncaught s /\
  snd (debounced delay args s) = Returned.
Proof.
  unfold_stmts; simpl; destruct (timeoutRef s); simpl; repeat split.
Qed.

Lemma step_one_timer (delay : nat) (ev : event) (s : State) :
  one_timer s -> one_timer (step delay ev s).
Proof.
  intros W; destruct ev as [args| | |t|cb]; simpl.
  - unfold one_timer; rewrite (debounced_timers delay args s W).
    apply (debounced_fields delay args s).
  - unfold cancel; destruct (timeoutRef s) as [h|] eqn:T; [|exact W].
    unfold_stmts; unfold one_timer; simpl.
    rewrite (clear_own_timer s h W T); exact I.
  - unfold flush; destruct (timeoutRef s) as [h|] eqn:T; [|exact W].
    destruct (argsRef s) as [args|]; [|exact W].
    unfold_stmts; unfold one_timer; simpl.
    rewrite (clear_own_timer s h W T).
    destruct (callbackRef s args); exact I.
  - destruct (one_timer_cases s W) as [E | (h & d & E & T)].
    + rewrite (advance_nothing_scheduled t s E).
      unfold one_timer; simpl; rewrite E; exact I.
    + destruct (Nat.le_gt_cases d t) as [L|L].
      * rewrite (advance_due t s h d E L); unfold one_timer; simpl.
        rewrite (fire_sole_timers s h d E); exact I.
      * rewrite (advance_not_due t s h d E L); unfold one_timer; simpl.
        rewrite E; exact T.
  - exact W.
Qed.

Lemma reachable_one_timer (delay : nat) (cb : Callback) (s : State) :
  reachable delay cb s -> one_timer s.
Proof.
  induction 1 as [|s ev _ IH]; [exact I | apply step_one_timer; exact IH].
Qed.

(** ** What [flush] and a firing timer leave behind *)

Lemma flush_returned (s : State) (h : handle) (args : Args Arg) :
  timeoutRef s = Some h -> argsRef s = Some args ->
  callbackRef s args = Returned ->
  flush s =
    (mkState (callbackRef s) None None false (clock s) (next_handle s)
       (filter (fun t => negb (is_handle h t)) (timers s))
       (calls s ++ [mkCall (callbackRef s) args (clock s) Returned])
       (uncaught s),
     Returned).
Proof.
  intros T A R; unfold flush; rewrite T, A.
  unfold_stmts; simpl; rewrite R; reflexivity.
Qed.

Lemma flush_threw (s : State) (h : handle) (args : Args Arg) (e : Err) :
  timeoutRef s = Some h -> argsRef s = Some args ->
  callbackRef s args = Threw e ->
  flush s =
    (mkState (callbackRef s) None (Some args) (isPending s) (clock s)
       (next_handle s)
       (filter (fun t => negb (is_handle h t)) (timers s))
       (calls s ++ [mkCall (callbackRef s) args (clock s) (Threw e)])
       (uncaught s),
     Threw e).
Proof.
  intros T A R; unfold flush; rewrite T, A.
  unfold_stmts; simpl; rewrite R; unfold_sets; simpl; rewrite A; reflexivity.
Qed.

Lemma on_timeout_returned (s : State) (args : Args Arg) :
  argsRef s = Some args -> callbackRef s args = Returned ->
  on_timeout s =
    (mkState (callbackRef s) None None false (clock s) (next_handle s)
       (timers s)
       (calls s ++ [mkCall (callbackRef s) args (clock s) Returned])
       (uncaught s),
     Returned).
Proof.
  intros A R; unfold_stmts; rewrite A; simpl; rewrite R.
  unfold_sets; simpl; rewrite ?A; reflexivity.
Qed.

Lemma on_timeout_threw (s : State) (args : Args Arg) (e : Err) :
  argsRef s = Some args -> callbackRef s args = Threw e ->
  on_timeout s =
    (mkState (callbackRef s) (timeoutRef s) (Some args) (isPending s)
       (clock s) (next_handle s) (timers s)
       (calls s ++ [mkCall (callbackRef s) args (clock s) (Threw e)])
       (uncaught s),
     Threw e).
Proof.
  intros A R; unfold_stmts; rewrite A; simpl; rewrite R.
  unfold_sets; simpl; rewrite ?A; reflexivity.
Qed.

Lemma fire_returned (s : State) (h : handle) (d : nat) (args : Args Arg) :
  timers s = [(h, d)] -> argsRef s = Some args ->
  callbackRef s args = Returned ->
  fire h s =
    mkState (callbackRef s) None None false (Nat.max (clock s) d)
      (next_handle s) []
      (calls s ++ [mkCall (callbackRef s) args (Nat.max (clock s) d) Returned])
      (uncaught s).
Proof.
  intros E A R; rewrite (fire_sole s h d E); cbv zeta.
  rewrite (on_timeout_returned _ args); auto.
Qed.

Lemma fire_threw (s : State) (h : handle) (d : nat) (args : Args Arg) (e : Err) :
  timers s = [(h, d)] -> argsRef s = Some args ->
  callbackRef s args = Threw e ->
  fire h s =
    mkState (callbackRef s) (timeoutRef s) (Some args) (isPending s)
      (Nat.max (clock s) d) (next_handle s) []
      (calls s ++ [mkCall (callbackRef s) args (Nat.max (clock s) d) (Threw e)])
      (uncaught s ++ [e]).
Proof.
  intros E A R; rewrite (fire_sole s h d E); cbv zeta.
  rewrite (on_timeout_threw _ args e); auto.
Qed.

Lemma fire_no_args (s : State) (h : handle) (d : nat) :
  timers s = [(h, d)] -> argsRef s = None ->
  fire h s =
    mkState (callbackRef s) None None false (Nat.max (clock s) d)
      (next_handle s) [] (calls s) (uncaught s).
Proof.
  intros E A; rewrite (fire_sole s h d E); cbv zeta.
  unfold_stmts; simpl; rewrite A; unfold_sets; simpl; rewrite A; reflexivity.
Qed.

(** The one call a firing timer or a flush makes, whatever its outcome. *)
Lemma fire_calls (s : State) (h : handle) (d : nat) (args : Args Arg) :
  timers s = [(h, d)] -> argsRef s = Some args ->
  calls (fire h s) =
    calls s ++ [mkCall (callbackRef s) args (Nat.max (clock s) d)
                  (callbackRef s args)]
  /\ timers (fire h s) = []
  /\ clock (fire h s) = Nat.max (clock s) d
  /\ callbackRef (fire h s) = callbackRef s.
Proof.
  intros E A; destruct (callbackRef s args) as [|e] eqn:R.
  - rewrite (fire_returned s h d args E A R); simpl; auto.
  - rewrite (fire_threw s h d args e E A R); simpl; auto.
Qed.

Lemma flush_calls (s : State) (h : handle) (args : Args Arg) :
  timeoutRef s = Some h -> argsRef s = Some args ->
  calls (fst (flush s)) =
    calls s ++ [mkCall (callbackRef s) args (clock s) (callbackRef s args)]
  /\ snd (flush s) = callbackRef s args
  /\ timeoutRef (fst (flush s)) = None
  /\ clock (fst (flush s)) = clock s
  /\ timers (fst (flush s)) = filter (fun t => negb (is_handle h t)) (timers s).
Proof.
  intros T A; destruct (callbackRef s args) as [|e] eqn:R.
  - rewrite (flush_returned s h args T A R); simpl; auto.
  - rewrite (flush_threw s h args e T A R); simpl; auto.
Qed.

(** ** Idle controller *)

Lemma cancel_idle (s : State) : timeoutRef s = None -> cancel s = (s, Returned).
Proof. unfold cancel; intros H; rewrite H; reflexivity. Qed.

Lemma flush_idle (s : State) : timeoutRef s = None -> flush s = (s, Returned).
Proof. unfold flush; intros H; rewrite H; reflexivity. Qed.

(** ** A delay of zero *)

(** C8. With a delay of zero the debounced function still only schedules:
    the call returns without having invoked the action, the timer it leaves
    is due at once, and the invocation happens when the host next runs its
    due timers. *)
Theorem zero_delay_defers (args : Args Arg) (s : State) :
  one_timer s ->
  let s' := fst (debounced 0 args s) in
  snd (debounced 0 args s) = Returned /\
  calls s' = calls s /\
  timers s' = [(next_handle s, clock s)] /\
  isPending s' = true /\
  calls (advance (clock s) s') =
    calls s ++ [mkCall (callbackRef s) args (clock s) (callbackRef s args)].
Proof.
  intros W s'.
  pose proof (debounced_timers 0 args s W) as T; fold s' in T.
  rewrite Nat.add_0_r in T.
  destruct (debounced_fields 0 args s) as (_ & A & P & K & C & B & _ & R).
  fold s' in A, P, K, C, B.
  repeat split; auto.
  rewrite (advance_due (clock s) s' _ _ T (Nat.le_refl _)); simpl.
  destruct (fire_calls s' _ _ args T A) as (F & _).
  rewrite F, C, B, K, Nat.max_id; reflexivity.
Qed.

(** ** Rebinding the action *)

(** C7. Supplying a new callback changes nothing but the bound action (the
    pending timer keeps its due time, the recorded executions stay as they
    were); the next execution, by the timer or by [flush], invokes the new
    action; an execution that happened before the rebinding invoked the action
    bound when it ran. *)
Theorem rebinding_applies_to_next_execution
  (s : State) (cb' : Callback) (h : handle) (d : nat) (args : Args Arg) :
  timers s = [(h, d)] -> timeoutRef s = Some h -> argsRef s = Some args ->
  let s' := fst (rebind cb' s) in
  (timers s' = timers s /\ timeoutRef s' = timeoutRef s /\
   argsRef s' = argsRef s /\ isPending s' = isPending s /\
   clock s' = clock s /\ calls s' = calls s) /\
  calls (fire h s') =
    calls s ++ [mkCall cb' args (Nat.max (clock s) d) (cb' args)] /\
  calls (fst (flush s')) = calls s ++ [mkCall cb' args (clock s) (cb' args)] /\
  calls (fst (rebind cb' (fire h s))) =
    calls s ++ [mkCall (callbackRef s) args (Nat.max (clock s) d)
                  (callbackRef s args)] /\
  calls (fst (rebind cb' (fst (flush s)))) =
    calls s ++ [mkCall (callbackRef s) args (clock s) (callbackRef s args)].
Proof.
  intros E T A s'; split; [|split; [|split; [|split]]].
  - repeat split.
  - destruct (fire_calls s' h d args E A) as (F & _); exact F.
  - destruct (flush_calls s' h args T A) as (F & _); exact F.
  - destruct (fire_calls s h d args E A) as (F & _); exact F.
  - destruct (flush_calls s h args T A) as (F & _); exact F.
Qed.

(** ** A throwing action *)



(** ** After a cancel or a flush nothing is left to run *)

Lemma quiet_run (delay : nat) (evs : list event) (s : State) :
  timeoutRef s = None -> timers s = [] -> no_trigger evs ->
  let s' := run delay evs s in
  calls s' = calls s /\ timeoutRef s' = None /\ timers s' = [] /\
  argsRef s' = argsRef s /\ isPending s' = isPending s.
Proof.
  unfold no_trigger; revert s; induction evs as [|ev evs IH]; intros s T E N.
  - simpl; auto.
  - simpl in N; apply andb_true_iff in N; destruct N as [N1 N2].
    assert (S1 : calls (step delay ev s) = calls s /\
                 timeoutRef (step delay ev s) = None /\
                 timers (step delay ev s) = [] /\
                 argsRef (step delay ev s) = argsRef s /\
                 isPending (step delay ev s) = isPending s).
    { destruct ev as [args| | |t|cb]; cbn [step].
      - discriminate N1.
      - rewrite (cancel_idle s T); simpl; auto.
      - rewrite (flush_idle s T); simpl; auto.
      - rewrite (advance_nothing_scheduled t s E); simpl; auto.
      - auto. }
    destruct S1 as (C & T' & E' & A & P).
    destruct (IH (step delay ev s) T' E' N2) as (C2 & T2 & E2 & A2 & P2).
    simpl; unfold run in *; simpl in *.
    rewrite C2, A2, P2, C, A, P; auto.
Qed.

(** C4. Cancelling a pending execution removes its timer, discards the
    stored arguments and lowers the flag, without invoking the action; and
    whatever happens afterwards short of a new trigger (time passing, more
    cancels, flushes, rebinding), the action is never invoked. *)
Theorem cancel_pending_never_runs
  (delay : nat) (s : State) (h : handle) (d : nat) :
  timers s = [(h, d)] -> timeoutRef s = Some h ->
  let s' := fst (cancel s) in
  snd (cancel s) = Returned /\
  timers s' = [] /\
  cleaned s' /\
  calls s' = calls s /\
  forall evs, no_trigger evs -> calls (run delay evs s') = calls s.
Proof.
  intros E T s'.
  assert (F : cancel s =
            (mkState (callbackRef s) None None false (clock s) (next_handle s)
               [] (calls s) (uncaught s), Returned)).
  { unfold cancel; rewrite T; unfold_stmts; unfold_sets; simpl.
    rewrite E; simpl; rewrite is_handle_same; reflexivity. }
  subst s'; rewrite F; unfold cleaned; simpl; repeat split.
  intros evs N.
  destruct (quiet_run delay evs _ (eq_refl : timeoutRef (mkState _ _ _ _ _ _ _ _ _) = None)
              (eq_refl : timers (mkState (callbackRef s) None None false
                                   (clock s) (next_handle s) [] (calls s)
                                   (uncaught s)) = []) N) as (C & _).
  exact C.
Qed.

(** C3, as amended. Flushing a pending execution invokes the action once,
    inside the call, with the stored arguments, and takes the timer away, so
    that nothing short of a new trigger invokes it again; when the action
    returns, the stored arguments are discarded and the flag is down. *)
Theorem flush_pending_runs_once
  (delay : nat) (s : State) (h : handle) (d : nat) (args : Args Arg) :
  timers s = [(h, d)] -> timeoutRef s = Some h -> argsRef s = Some args ->
  let s' := fst (flush s) in
  let c := mkCall (callbackRef s) args (clock s) (callbackRef s args) in
  calls s' = calls s ++ [c] /\
  snd (flush s) = callbackRef s args /\
  timers s' = [] /\
  timeoutRef s' = None /\
  (forall evs, no_trigger evs -> calls (run delay evs s') = calls s ++ [c]) /\
  (callbackRef s args = Returned -> argsRef s' = None /\ isPending s' = false).
Proof.
  intros E T A s' c.
  destruct (flush_calls s h args T A) as (C & R & T' & _ & M).
  fold s' in C, T', M.
  assert (E' : timers s' = []).
  { rewrite M, E; simpl; rewrite is_handle_same; reflexivity. }
  repeat split; auto.
  - intros evs N.
    destruct (quiet_run delay evs s' T' E' N) as (C2 & _).
    rewrite C2; exact C.
  - subst s'; rewrite (flush_returned s h args T A H); reflexivity.
  - subst s'; rewrite (flush_returned s h args T A H); reflexivity.
Qed.

(** ** The pending flag *)

Lemma settled_tracks (s : State) : settled s -> flag_tracks_timer s.
Proof.
  unfold settled, flag_tracks_timer.
  destruct (timeoutRef s) as [h|].
  - intros ((d & E) & _ & P); rewrite E, P; split; [discriminate | auto].
  - intros (E & _ & P); rewrite E, P; split; [discriminate | congruence].
Qed.

Lemma all_returned_snoc (s s' : State) (c : Call Arg Err) :
  calls s' = calls s ++ [c] -> all_returned s' ->
  all_returned s /\ call_result c = Returned.
Proof.
  unfold all_returned; intros E H; rewrite E in H.
  apply Forall_app in H; destruct H as [H1 H2]; split; auto.
  inversion H2; auto.
Qed.

Lemma step_settled (delay : nat) (ev : event) (s : State) :
  one_timer s -> (all_returned s -> settled s) ->
  all_returned (step delay ev s) -> settled (step delay ev s).
Proof.
  intros W I R; destruct ev as [args| | |t|cb]; cbn [step] in *.
  - destruct (debounced_fields delay args s) as (T & A & P & _ & C & _).
    unfold settled; rewrite T, A, P, (debounced_timers delay args s W).
    repeat split; eauto.
  - destruct (timeoutRef s) as [h|] eqn:T.
    + unfold cancel; rewrite T; unfold_stmts; unfold settled; simpl.
      rewrite (clear_own_timer s h W T); auto.
    + rewrite (cancel_idle s T) in *; auto.
  - destruct (timeoutRef s) as [h|] eqn:T; [|rewrite (flush_idle s T) in *; auto].
    destruct (argsRef s) as [args|] eqn:A.
    + destruct (flush_calls s h args T A) as (C & _).
      destruct (all_returned_snoc s _ _ C R) as (_ & Q); simpl in Q.
      rewrite (flush_returned s h args T A Q); unfold settled; simpl.
      rewrite (clear_own_timer s h W T); auto.
    + assert (F : flush s = (s, Returned))
        by (unfold flush; rewrite T, A; reflexivity).
      rewrite F in *; auto.
  - destruct (one_timer_cases s W) as [E | (h & d & E & T)].
    + rewrite (advance_nothing_scheduled t s E) in *; apply I, R.
    + destruct (Nat.le_gt_cases d t) as [L|L].
      * rewrite (advance_due t s h d E L) in *.
        assert (R' : all_returned (fire h s)) by exact R.
        unfold settled; simpl.
        destruct (argsRef s) as [args|] eqn:A.
        -- destruct (fire_calls s h d args E A) as (C & _).
           destruct (all_returned_snoc s _ _ C R') as (_ & Q); simpl in Q.
           rewrite (fire_returned s h d args E A Q); simpl; auto.
        -- rewrite (fire_no_args s h d E A); simpl; auto.
      * rewrite (advance_not_due t s h d E L) in *; apply I, R.
  - apply I, R.
Qed.

Lemma reachable_settled (delay : nat) (cb : Callback) (s : State) :
  reachable delay cb s -> all_returned s -> settled s.
Proof.
  induction 1 as [|s ev H IH].
  - intros _; unfold settled; simpl; auto.
  - apply step_settled; [apply (reachable_one_timer delay cb s H) | exact IH].
Qed.

(** ** A burst of triggers *)

Lemma last_cons {A : Type} (c : A) (r : list A) (d : A) :
  last (c :: r) d = last r c.
Proof.
  revert c d; induction r as [|x r IH]; intros c d; [reflexivity|].
  change (last (c :: x :: r) d) with (last (x :: r) d).
  rewrite (IH x d), (IH x c); reflexivity.
Qed.

Lemma waiting_one_timer (delay t : nat) (args : Args Arg) (s : State) :
  waiting delay t args s -> one_timer s.
Proof. intros (h & E & T & _); unfold one_timer; rewrite E; exact T. Qed.

(** Time passes until [t], before anything scheduled is due, and the
    debounced function is called. *)
Lemma trigger_at (delay t : nat) (args : Args Arg) (s : State) :
  one_timer s -> Forall (fun tm => t < snd tm) (timers s) -> clock s <= t ->
  let s' := step delay (Trigger args) (step delay (Elapse t) s) in
  waiting delay t args s' /\ calls s' = calls s /\
  callbackRef s' = callbackRef s.
Proof.
  intros W D K; cbn [step].
  assert (A : advance t s = set_clock (Nat.max (clock s) t) s).
  { destruct (one_timer_cases s W) as [E | (h & d & E & _)].
    - apply (advance_nothing_scheduled t s E).
    - apply (advance_not_due t s h d E).
      rewrite E in D; inversion D; auto. }
  rewrite A, Nat.max_r by exact K.
  assert (W' : one_timer (set_clock t s)) by exact W.
  pose proof (debounced_timers delay args _ W') as M.
  destruct (debounced_fields delay args (set_clock t s))
    as (T & R & _ & C & L & B & _).
  cbv zeta; repeat split; auto.
  exists (next_handle s); repeat split; auto.
Qed.

Lemma burst_waiting (delay : nat) (rest : list (nat * Args Arg)) :
  forall (t : nat) (args : Args Arg) (s : State),
    waiting delay t args s -> spaced delay t rest ->
    let s' := run delay (burst_events rest) s in
    let final := last rest (t, args) in
    waiting delay (fst final) (snd final) s' /\ calls s' = calls s /\
    callbackRef s' = callbackRef s.
Proof.
  induction rest as [|c r IH]; intros t args s Wt Sp.
  - simpl; auto.
  - destruct Sp as (L1 & L2 & Sp).
    pose proof (waiting_one_timer delay t args s Wt) as W.
    destruct Wt as (h & E & _ & _ & K).
    destruct (trigger_at delay (fst c) (snd c) s W) as (Wc & C & B).
    { rewrite E; constructor; [simpl; lia | constructor]. }
    { lia. }
    destruct (IH (fst c) (snd c) _ Wc Sp) as (Wf & C' & B').
    rewrite last_cons.
    replace (last r c) with (last r (fst c, snd c)) by (destruct c; reflexivity).
    change (run delay (burst_events (c :: r)) s)
      with (run delay (burst_events r)
              (step delay (Trigger (snd c)) (step delay (Elapse (fst c)) s))).
    cbv zeta; rewrite C', B', C, B; auto.
Qed.

Lemma waiting_advance (delay t : nat) (args : Args Arg) (s : State) :
  waiting delay t args s ->
  (forall T, T < t + delay -> calls (advance T s) = calls s) /\
  (forall T, t + delay <= T ->
     calls (advance T s) =
       calls s ++ [mkCall (callbackRef s) args (t + delay) (callbackRef s args)]
     /\ timers (advance T s) = []).
Proof.
  intros (h & E & _ & A & K); split; intros T L.
  - rewrite (advance_not_due T s h _ E L); reflexivity.
  - rewrite (advance_due T s h _ E L); simpl.
    destruct (fire_calls s h _ args E A) as (C & M & _).
    rewrite C, M, K, Nat.max_r by lia; auto.
Qed.

(** C1. A burst of calls of the debounced function, each less than
    [delay] after the one before, leads to one invocation of the action: none
    while less than [delay] has passed since the last call, and from then on
    exactly one, made [delay] after the last call with the arguments of that
    call. Only those arguments are stored when the burst ends. *)
Theorem burst_runs_once_with_last_args
  (delay : nat) (s : State) (first : nat * Args Arg)
  (rest : list (nat * Args Arg)) :
  one_timer s ->
  Forall (fun tm => fst first < snd tm) (timers s) ->
  clock s <= fst first ->
  spaced delay (fst first) rest ->
  let final := last rest first in
  let s' := run delay (burst_events (first :: rest)) s in
  let c := mkCall (callbackRef s) (snd final) (fst final + delay)
             (callbackRef s (snd final)) in
  argsRef s' = Some (snd final) /\
  calls s' = calls s /\
  (forall T, T < fst final + delay -> calls (advance T s') = calls s) /\
  (forall T, fst final + delay <= T ->
     calls (advance T s') = calls s ++ [c] /\ timers (advance T s') = []).
Proof.
  intros W D K Sp final s' c.
  destruct (trigger_at delay (fst first) (snd first) s W D K) as (Wc & C & B).
  destruct (burst_waiting delay rest (fst first) (snd first) _ Wc Sp)
    as (Wf & C' & B').
  replace (last rest (fst first, snd first)) with final in Wf
    by (destruct first; reflexivity).
  change (run delay (burst_events rest)
            (step delay (Trigger (snd first)) (step delay (Elapse (fst first)) s)))
    with s' in Wf, C', B'.
  destruct (waiting_advance delay _ _ s' Wf) as (Before & After).
  assert (Cs : calls s' = calls s) by (rewrite C'; exact C).
  assert (Bs : callbackRef s' = callbackRef s) by (rewrite B'; exact B).
  split; [|split; [|split]].
  - destruct Wf as (h & _ & _ & A & _); exact A.
  - exact Cs.
  - intros T L; rewrite (Before T L); exact Cs.
  - intros T L; destruct (After T L) as (X & Y); split; auto.
    rewrite X, Cs, Bs; reflexivity.
Qed.

(** ** [advance] fires everything that is due *)

Lemma next_due_some (t : nat) (l : list (handle * nat)) (h : handle) (d : nat) :
  next_due t l = Some (h, d) -> In (h, d) l /\ d <= t.
Proof.
  revert h d; induction l as [|[h0 d0] r IH]; intros h d; simpl; [discriminate|].
  destruct (next_due t r) as [[h' d']|].
  - destruct (IH h' d' eq_refl) as [I L].
    destruct (Nat.leb_spec d0 d'); intros Q; inversion Q; subst; split; auto; lia.
  - destruct (Nat.leb_spec d0 t); intros Q; inversion Q; subst; split; auto.
Qed.

Lemma next_due_none (t : nat) (l : list (handle * nat)) :
  next_due t l = None -> Forall (fun tm => t < snd tm) l.
Proof.
  induction l as [|[h0 d0] r IH]; simpl; [constructor|].
  destruct (next_due t r) as [[h' d']|].
  - destruct (d0 <=? d'); discriminate.
  - destruct (Nat.leb_spec d0 t); [discriminate|].
    intros _; constructor; auto.
Qed.

Lemma filter_drops (h : handle) (d : nat) (l : list (handle * nat)) :
  In (h, d) l ->
  List.length (filter (fun t => negb (is_handle h t)) l) < List.length l.
Proof.
  induction l as [|x r IH]; simpl; [contradiction|].
  intros [E | I].
  - subst x; rewrite is_handle_same; simpl.
    pose proof (filter_length_le (fun t => negb (is_handle h t)) r); lia.
  - specialize (IH I); destruct (negb (is_handle h x)); simpl; lia.
Qed.

Lemma fire_timers (h : handle) (s : State) :
  timers (fire h s) = filter (fun t => negb (is_handle h t)) (timers s).
Proof.
  unfold fire; destruct (find (is_handle h) (timers s)) as [[h' d']|] eqn:F.
  - match goal with |- context [on_timeout ?x] =>
      pose proof (on_timeout_timers x) as T; destruct (on_timeout x) as [s2 [|e]]
    end; simpl in *; exact T.
  - symmetry; apply forallb_filter_id, forallb_forall.
    intros x I; pose proof (find_none _ _ F x I) as N; rewrite N; reflexivity.
Qed.

Lemma run_due_done (fuel t : nat) :
  forall s : State,
    List.length (timers s) <= fuel ->
    next_due t (timers (run_due fuel t s)) = None.
Proof.
  induction fuel as [|fuel IH]; intros s L; simpl.
  - destruct (timers s); [reflexivity | simpl in L; lia].
  - destruct (next_due t (timers s)) as [[h d]|] eqn:N; [|exact N].
    apply IH; destruct (next_due_some t _ h d N) as [I _].
    rewrite fire_timers; pose proof (filter_drops h d _ I); lia.
Qed.

Lemma advance_leaves_nothing_due (t : nat) (s : State) :
  Forall (fun tm => t < snd tm) (timers (advance t s)).
Proof.
  unfold advance; simpl; apply next_due_none, run_due_done; auto.
Qed.

(** In a reachable state a lowered flag means nothing is pending. *)
Lemma flag_down_idle (delay : nat) (cb : Callback) (s : State) :
  reachable delay cb s -> isPending s = false ->
  timeoutRef s = None /\ timers s = [].
Proof.
  intros H.
  assert (I : timeoutRef s = None \/ isPending s = true).
  { induction H as [|s ev H IH]; [left; reflexivity|].
    pose proof (reachable_one_timer delay cb s H) as W.
    destruct ev as [args| | |t|cb']; cbn [step].
    - right; apply (debounced_fields delay args s).
    - left; unfold cancel; destruct (timeoutRef s) as [h|] eqn:T; [reflexivity | exact T].
    - destruct (timeoutRef s) as [h|] eqn:T.
      + destruct (argsRef s) as [args|] eqn:A.
        * left; apply (flush_calls s h args T A).
        * unfold flush; rewrite T, A; simpl; rewrite T.
          destruct IH; [discriminate | auto].
      + left; rewrite (flush_idle s T); exact T.
    - destruct (one_timer_cases s W) as [E | (h & d & E & T)].
      + rewrite (advance_nothing_scheduled t s E); exact IH.
      + destruct (Nat.le_gt_cases d t) as [L|L].
        * rewrite (advance_due t s h d E L); simpl.
          destruct (argsRef s) as [args|] eqn:A.
          -- destruct (callbackRef s args) as [|e] eqn:R.
             ++ rewrite (fire_returned s h d args E A R); left; reflexivity.
             ++ rewrite (fire_threw s h d args e E A R); exact IH.
          -- rewrite (fire_no_args s h d E A); left; reflexivity.
        * rewrite (advance_not_due t s h d E L); exact IH.
    - exact IH. }
  intros P; destruct I as [T | Q]; [|congruence].
  split; [exact T | apply (no_handle_no_timer s (reachable_one_timer delay cb s H) T)].
Qed.

(** ** Reachable states with an execution pending *)

Lemma reachable_run (delay : nat) (cb : Callback) (evs : list event) :
  forall s : State, reachable delay cb s -> reachable delay cb (run delay evs s).
Proof.
  induction evs as [|ev evs IH]; intros s H; [exact H|].
  apply (IH (step delay ev s)); constructor; exact H.
Qed.


(** ** The pending flag, and calls that find nothing pending *)


Lemma snoc_last_threw (s s' : State) (c : Call Arg Err) (e : Err) :
  calls s' = calls s ++ [c] -> call_result c = Threw e -> last_threw s'.
Proof. intros C Q; exists (calls s), c, e; auto. Qed.




End Facts.

(** ** The theorems at concrete controllers *)

Local Open Scope string_scope.

Lemma armed_pending (cb : Callback string string) :
  timers (armed cb) = [(1%positive, 300)] /\
  timeoutRef (armed cb) = Some 1%positive /\
  argsRef (armed cb) = Some ["a"].
Proof. repeat split. Qed.

Lemma zero_delay_defers_witness :
  one_timer (mount saves) /\
  calls (fst (debounced 0 ["y"] (mount saves))) = [] /\
  calls (advance 0 (fst (debounced 0 ["y"] (mount saves)))) =
    [mkCall saves ["y"] 0 Returned].
Proof.
  split; [exact I|].
  destruct (zero_delay_defers string string ["y"] (mount saves) I)
    as (_ & C & _ & _ & F).
  split; [exact C | exact F].
Defined.

Lemma rebinding_applies_to_next_execution_witness :
  timers (armed saves) = [(1%positive, 300)] /\
  calls (fire 1%positive (fst (rebind fails (armed saves)))) =
    [mkCall fails ["a"] 300 (Threw "save failed")] /\
  calls (fst (rebind fails (fire 1%positive (armed saves)))) =
    [mkCall saves ["a"] 300 Returned].
Proof.
  split; [reflexivity|].
  destruct (rebinding_applies_to_next_execution string string
              (armed saves) fails 1%positive 300 ["a"]
              eq_refl eq_refl eq_refl) as (_ & A & _ & B & _).
  split; [exact A | exact B].
Defined.




(** What the handle left behind makes possible: once the timer callback
    has thrown, a flush passes its guard and invokes the action again with
    the arguments that stayed stored. *)
Lemma flush_after_timer_throw_calls_again :
  calls (fst (flush (fire 1%positive (armed fails)))) =
    [mkCall fails ["a"] 300 (Threw "save failed");
     mkCall fails ["a"] 300 (Threw "save failed")].
Proof. reflexivity. Qed.

Lemma cancel_pending_never_runs_witness :
  timeoutRef (armed saves) = Some 1%positive /\
  cleaned (fst (cancel (armed saves))) /\
  calls (run 300 [Elapse 300; Flush; Elapse 1000] (fst (cancel (armed saves)))) = [].
Proof.
  split; [reflexivity|].
  destruct (cancel_pending_never_runs string string 300 (armed saves) 1%positive
              300 eq_refl eq_refl) as (_ & _ & A & _ & B).
  split; [exact A | exact (B [Elapse 300; Flush; Elapse 1000] eq_refl)].
Defined.

Lemma flush_pending_runs_once_witness :
  argsRef (advance 50 (armed saves)) = Some ["a"] /\
  calls (fst (flush (advance 50 (armed saves)))) =
    [mkCall saves ["a"] 50 Returned] /\
  isPending (fst (flush (advance 50 (armed saves)))) = false.
Proof.
  split; [reflexivity|].
  destruct (flush_pending_runs_once string string 300 (advance 50 (armed saves))
              1%positive 300 ["a"] eq_refl eq_refl eq_refl)
    as (A & _ & _ & _ & _ & B).
  split; [exact A | exact (proj2 (B eq_refl))].
Defined.

(** C3 as stated fails when the action throws: the call is made, but the
    arguments stay stored and the flag stays up. *)
Lemma flush_throw_stays_pending :
  timers (armed fails) = [(1%positive, 300)] /\
  timeoutRef (armed fails) = Some 1%positive /\
  argsRef (armed fails) = Some ["a"] /\
  isPending (fst (flush (armed fails))) = true /\
  ~ flushed (armed fails) ["a"] (fst (flush (armed fails))).
Proof.
  repeat split. intros (_ & _ & P); discriminate P.
Qed.







Lemma burst_runs_once_with_last_args_witness :
  spaced 300 0 [(100, ["b"]); (150, ["c"])] /\
  calls (advance 449 (run 300 (burst_events three_calls) (mount saves))) = [] /\
  calls (advance 450 (run 300 (burst_events three_calls) (mount saves))) =
    [mkCall saves ["c"] 450 Returned].
Proof.
  assert (Sp : spaced 300 0 [(100, ["b"]); (150, ["c"])]) by (simpl; lia).
  split; [exact Sp|].
  destruct (burst_runs_once_with_last_args string string 300 (mount saves)
              (0, ["a"]) [(100, ["b"]); (150, ["c"])]
              I (Forall_nil _) (Nat.le_refl 0) Sp) as (_ & _ & A & B).
  split; [apply (A 449); simpl; lia | apply (B 450); simpl; lia].
Defined.

End DebounceFacts.

(** * Facts about the toast provider *)

Module ToastFacts.

Import Toast.

Local Open Scope Z_scope.

(** ** The dismiss log *)

Lemma spared_nil (i : string) : spared i [].
Proof. split; intros []. Qed.

Lemma spared_app (i : string) (a b : list dismissal) :
  spared i (a ++ b) <-> spared i a /\ spared i b.
Proof.
  unfold spared; split.
  - intros [H1 H2]; split; split; intros H.
    + apply H1, in_or_app; auto.
    + apply H2, in_or_app; auto.
    + apply H1, in_or_app; auto.
    + apply H2, in_or_app; auto.
  - intros [[A1 A2] [B1 B2]]; split; intros H; apply in_app_or in H; tauto.
Qed.

Lemma dismiss_keeps (i : string) (toast : Toast) (s : State) :
  In toast (toasts s) -> i <> id toast -> In toast (toasts (dismiss i s)).
Proof.
  intros I N; unfold dismiss; simpl; apply filter_In; split; [exact I|].
  destruct (String.eqb_spec (id toast) i); [congruence | reflexivity].
Qed.

Lemma dismiss_removes (i : string) (s : State) (t : Toast) :
  In t (toasts (dismiss i s)) -> In t (toasts s) /\ id t <> i.
Proof.
  unfold dismiss; simpl; intros H; apply filter_In in H; destruct H as [I E].
  split; [exact I|]; destruct (String.eqb_spec (id t) i); [discriminate | auto].
Qed.

(** ** Timers that are due *)

Lemma pop_due_none (t : Z) (l : list (Z * string)) :
  pop_due t l = None -> Forall (fun tm => t < fst tm) l.
Proof.
  induction l as [|[d i] r IH]; simpl; [constructor|].
  destruct (pop_due t r) as [[[d' i'] r']|].
  - destruct (d <=? d'); discriminate.
  - destruct (Z.leb_spec d t); [discriminate|].
    intros _; constructor; auto.
Qed.

Lemma pop_due_some (t : Z) (l : list (Z * string)) :
  forall x rest,
    pop_due t l = Some (x, rest) ->
    fst x <= t /\ List.length l = S (List.length rest) /\
    (forall y, In y l <-> y = x \/ In y rest).
Proof.
  induction l as [|[d i] r IH]; simpl; intros x rest; [discriminate|].
  destruct (pop_due t r) as [[[d' i'] r']|].
  - destruct (IH _ _ eq_refl) as (L & N & M).
    destruct (Z.leb_spec d d'); intros Q; inversion Q; subst; simpl in *.
    + split; [lia | split; [reflexivity|]].
      intros y; split; intros [E | I]; auto.
    + split; [lia | split; [lia|]].
      intros y; rewrite (M y); simpl; intuition auto.
  - destruct (Z.leb_spec d t); intros Q; inversion Q; subst; simpl.
    split; [lia | split; [reflexivity|]].
    intros y; split; intros [E | I]; auto.
Qed.

(** ** What time passing does to the toasts *)

(** Firing timers only ever removes toasts and only ever adds to the log;
    a toast none of the added calls names is still there. *)
Lemma run_due_log (fuel : nat) (t : Z) :
  forall s : State,
    exists new,
      dismissals (run_due fuel t s) = dismissals s ++ new /\
      incl (toasts (run_due fuel t s)) (toasts s) /\
      forall toast, In toast (toasts s) -> spared (id toast) new ->
                    In toast (toasts (run_due fuel t s)).
Proof.
  induction fuel as [|fuel IH]; intros s; simpl.
  - exists []; rewrite app_nil_r; repeat split; auto using incl_refl.
  - destruct (pop_due t (timers s)) as [[[due i] rest]|].
    + set (s1 := dismiss i (set_now (Z.max (now s) due) (set_timers rest s))).
      destruct (IH s1) as (new & L & S & K).
      exists (DismissOne i :: new); split; [|split].
      * rewrite L; unfold s1; simpl; rewrite <- app_assoc; reflexivity.
      * intros x I; apply S in I; apply dismiss_removes in I; apply I.
      * intros toast I [N1 N2]; apply K.
        -- apply dismiss_keeps; [exact I|].
           intros E; apply N1; left; congruence.
        -- split; intros H; [apply N1 | apply N2]; right; exact H.
    + exists []; rewrite app_nil_r; repeat split; auto using incl_refl.
Qed.

Lemma step_log (ev : event) (s : State) :
  exists new,
    dismissals (step ev s) = dismissals s ++ new /\
    forall toast, In toast (toasts s) -> spared (id toast) new ->
                  In toast (toasts (step ev s)).
Proof.
  destruct ev as [rnd ty msg options|i| |t]; cbn [step].
  - exists []; rewrite app_nil_r; split.
    + unfold notify; simpl; destruct (0 <? _); reflexivity.
    + intros toast I _; unfold notify; simpl.
      destruct (0 <? _); simpl; apply in_or_app; auto.
  - exists [DismissOne i]; split; [reflexivity|].
    intros toast I [N _]; apply dismiss_keeps; [exact I|].
    intros E; apply N; left; congruence.
  - exists [DismissEvery]; split; [reflexivity|].
    intros toast _ [_ N]; elim N; left; reflexivity.
  - destruct (run_due_log (List.length (timers s)) t s) as (new & L & _ & K).
    exists new; split; [exact L | exact K].
Qed.

Lemma run_log (evs : list event) :
  forall s : State,
    exists new,
      dismissals (run evs s) = dismissals s ++ new /\
      forall toast, In toast (toasts s) -> spared (id toast) new ->
                    In toast (toasts (run evs s)).
Proof.
  induction evs as [|ev evs IH]; intros s.
  - exists []; rewrite app_nil_r; split; auto.
  - destruct (step_log ev s) as (n1 & L1 & K1).
    destruct (IH (step ev s)) as (n2 & L2 & K2).
    exists (n1 ++ n2); split.
    + change (run (ev :: evs) s) with (run evs (step ev s)).
      rewrite L2, L1, app_assoc; reflexivity.
    + intros toast I Sp; apply spared_app in Sp; destruct Sp as [S1 S2].
      change (run (ev :: evs) s) with (run evs (step ev s)); auto.
Qed.

(** A timer that is due when time passes has fired: its call is in the
    log and no toast with its id is left. *)
Lemma run_due_fires (fuel : nat) (t : Z) (d : Z) (i : string) :
  forall s : State,
    (List.length (timers s) <= fuel)%nat -> In (d, i) (timers s) -> d <= t ->
    In (DismissOne i) (dismissals (run_due fuel t s)) /\
    forall x, In x (toasts (run_due fuel t s)) -> id x <> i.
Proof.
  induction fuel as [|fuel IH]; intros s F I L.
  - destruct (timers s); [contradiction | simpl in F; lia].
  - simpl; destruct (pop_due t (timers s)) as [[[due j] rest]|] eqn:P.
    + destruct (pop_due_some t _ _ _ P) as (_ & N & M).
      set (s1 := dismiss j (set_now (Z.max (now s) due) (set_timers rest s))).
      apply M in I; destruct I as [E | I].
      * inversion E; subst due j.
        destruct (run_due_log fuel t s1) as (new & Lg & Inc & _).
        split.
        -- rewrite Lg; apply in_or_app; left.
           unfold s1; simpl; apply in_or_app; right; left; reflexivity.
        -- intros x X; apply Inc in X; apply dismiss_removes in X; apply X.
      * apply (IH s1); [unfold s1; simpl; lia | exact I | exact L].
    + apply pop_due_none in P; rewrite Forall_forall in P.
      specialize (P _ I); simpl in P; lia.
Qed.

(** ** Auto-dismiss *)

(** C10. [notify] appends the toast it builds. With a duration of zero
    or less it schedules nothing, and the toast stays in the list through any
    later events during which neither [dismiss] with its id nor [dismissAll]
    is called. With a duration above zero it schedules one timer, due that
    long from now, whose firing calls [dismiss] with this toast's id. *)
Theorem notify_auto_dismiss
  (rnd : string) (ty : ToastType) (msg : string)
  (options : option ToastOptions) (s : State) :
  let toast := made rnd ty msg options s in
  let s' := snd (notify rnd ty msg options s) in
  fst (notify rnd ty msg options s) = id toast /\
  toasts s' = toasts s ++ [toast] /\
  dismissals s' = dismissals s /\
  (duration toast <= 0 ->
   timers s' = timers s /\
   forall evs new,
     dismissals (run evs s') = dismissals s' ++ new ->
     spared (id toast) new ->
     In toast (toasts (run evs s'))) /\
  (0 < duration toast ->
   timers s' = timers s ++ [(now s + duration toast, id toast)] /\
   forall T,
     now s + duration toast <= T ->
     In (DismissOne (id toast)) (dismissals (advance T s')) /\
     forall x, In x (toasts (advance T s')) -> id x <> id toast).
Proof.
  intros toast s'.
  assert (Ts : toasts s' = toasts s ++ [toast]).
  { unfold s', notify; simpl; destruct (0 <? _); reflexivity. }
  split; [reflexivity | split; [exact Ts | split; [|split]]].
  - unfold s', notify; simpl; destruct (0 <? _); reflexivity.
  - intros D.
    assert (Tm : timers s' = timers s).
    { unfold s', notify; cbv zeta.
      change (mkToast _ _ _ _ _ _) with toast.
      destruct (Z.ltb_spec 0 (duration toast)); [lia | reflexivity]. }
    split; [exact Tm|].
    intros evs new E Sp.
    destruct (run_log evs s') as (new' & E' & K).
    rewrite E' in E; apply app_inv_head in E; subst new'.
    apply K; [rewrite Ts; apply in_or_app; right; left; reflexivity | exact Sp].
  - intros D.
    assert (Tm : timers s' = timers s ++ [(now s + duration toast, id toast)]).
    { unfold s', notify; cbv zeta.
      change (mkToast _ _ _ _ _ _) with toast.
      destruct (Z.ltb_spec 0 (duration toast)); [reflexivity | lia]. }
    split; [exact Tm|].
    intros T L; unfold advance; simpl.
    apply (run_due_fires _ T (now s + duration toast) (id toast) s');
      [apply Nat.le_refl | | exact L].
    rewrite Tm; apply in_or_app; right; left; reflexivity.
Qed.

Lemma notify_auto_dismiss_witness :
  duration (made "k3x9q2a" Info "saved" (Some sticky) mount) <= 0 /\
  0 < duration (made "k3x9q2a" Success "done" (Some brief) mount) /\
  timers (snd (notify "k3x9q2a" Info "saved" (Some sticky) mount)) = [] /\
  timers (snd (notify "k3x9q2a" Success "done" (Some brief) mount)) =
    [(3000, "toast-0-k3x9q2a"%string)].
Proof.
  assert (A : duration (made "k3x9q2a" Info "saved" (Some sticky) mount) <= 0)
    by (simpl; lia).
  assert (B : 0 < duration (made "k3x9q2a" Success "done" (Some brief) mount))
    by (simpl; lia).
  split; [exact A | split; [exact B | split]].
  - destruct (notify_auto_dismiss "k3x9q2a" Info "saved" (Some sticky) mount)
      as (_ & _ & _ & K & _).
    exact (proj1 (K A)).
  - destruct (notify_auto_dismiss "k3x9q2a" Success "done" (Some brief) mount)
      as (_ & _ & _ & _ & K).
    exact (proj1 (K B)).
Defined.

End ToastFacts.

(** * More about the debounce controller: whole runs and unmounting *)

Module DebounceTraceFacts.

Import Debounce DebounceTrace DebounceFacts.

Section Runs.

Variable Arg : Type.
Variable Err : Type.

Abbreviation State := (State Arg Err).
Abbreviation Callback := (Callback Arg Err).
Abbreviation event := (event Arg Err).

(** ** The record of invocations only grows *)

Lemma step_calls_grow (delay : nat) (ev : event) (s : State) :
  one_timer s -> exists extra, calls (step delay ev s) = calls s ++ extra.
Proof.
  intros W; destruct ev as [args| | |t|cb]; cbn [step].
  - exists []; rewrite app_nil_r; apply (debounced_fields Arg Err delay args s).
  - exists []; rewrite app_nil_r; unfold cancel.
    destruct (timeoutRef s); reflexivity.
  - destruct (timeoutRef s) as [h|] eqn:T.
    + destruct (argsRef s) as [args|] eqn:A.
      * destruct (flush_calls Arg Err s h args T A) as (C & _); eauto.
      * exists []; rewrite app_nil_r; unfold flush; rewrite T, A; reflexivity.
    + exists []; rewrite app_nil_r, (flush_idle Arg Err s T); reflexivity.
  - destruct (one_timer_cases Arg Err s W) as [E | (h & d & E & T)].
    + exists []; rewrite app_nil_r, (advance_nothing_scheduled Arg Err t s E).
      reflexivity.
    + destruct (Nat.le_gt_cases d t) as [L|L].
      * rewrite (advance_due Arg Err t s h d E L); simpl.
        destruct (argsRef s) as [args|] eqn:A.
        -- destruct (fire_calls Arg Err s h d args E A) as (C & _); eauto.
        -- exists []; rewrite app_nil_r, (fire_no_args Arg Err s h d E A).
           reflexivity.
      * exists []; rewrite app_nil_r, (advance_not_due Arg Err t s h d E L).
        reflexivity.
  - exists []; rewrite app_nil_r; reflexivity.
Qed.

Lemma run_one_timer (delay : nat) (evs : list event) :
  forall s : State, one_timer s -> one_timer (run delay evs s).
Proof.
  induction evs as [|ev evs IH]; intros s W; [exact W|].
  apply (IH (step delay ev s)), step_one_timer, W.
Qed.

Lemma run_calls_grow (delay : nat) (evs : list event) :
  forall s : State,
    one_timer s -> exists extra, calls (run delay evs s) = calls s ++ extra.
Proof.
  induction evs as [|ev evs IH]; intros s W.
  - exists []; rewrite app_nil_r; reflexivity.
  - destruct (step_calls_grow delay ev s W) as (e1 & E1).
    destruct (IH (step delay ev s) (step_one_timer Arg Err delay ev s W))
      as (e2 & E2).
    exists (e1 ++ e2).
    change (run delay (ev :: evs) s) with (run delay evs (step delay ev s)).
    rewrite E2, E1, app_assoc; reflexivity.
Qed.

Lemma all_returned_before (s s' : State) (extra : list (Call Arg Err)) :
  calls s' = calls s ++ extra -> all_returned s' -> all_returned s.
Proof.
  unfold all_returned; intros E H; rewrite E in H.
  apply Forall_app in H; apply H.
Qed.

(** ** Where invocations come from *)

Lemma sourced_mono (A A' : list (Args Arg)) (B B' : list Callback) (s : State) :
  incl A A' -> incl B B' -> sourced A B s -> sourced A' B' s.
Proof.
  intros IA IB (W & HA & HB & HC); repeat split; auto.
  - apply IA, (HC c H).
  - apply IB, (HC c H).
  - apply (HC c H).
Qed.

Lemma sourced_call (A : list (Args Arg)) (B : list Callback) (s s' : State)
  (args : Args Arg) (t : nat) :
  sourced A B s -> argsRef s = Some args -> one_timer s' ->
  calls s' = calls s ++ [mkCall (callbackRef s) args t (callbackRef s args)] ->
  callbackRef s' = callbackRef s ->
  (argsRef s' = None \/ argsRef s' = Some args) ->
  sourced A B s'.
Proof.
  intros (W & HA & HB & HC) A0 W' C B0 A1; repeat split; auto.
  - intros a E; destruct A1 as [N | S]; [congruence|].
    apply HA; congruence.
  - congruence.
  - rewrite C in H; apply in_app_or in H; destruct H as [H | [<- | []]];
      [apply (HC c H) | simpl; auto].
  - rewrite C in H; apply in_app_or in H; destruct H as [H | [<- | []]];
      [apply (HC c H) | simpl; auto].
  - rewrite C in H; apply in_app_or in H; destruct H as [H | [<- | []]];
      [apply (HC c H) | reflexivity].
Qed.

Lemma sourced_same (A : list (Args Arg)) (B : list Callback) (s s' : State) :
  sourced A B s -> one_timer s' -> calls s' = calls s ->
  callbackRef s' = callbackRef s ->
  (argsRef s' = None \/ argsRef s' = argsRef s) ->
  sourced A B s'.
Proof.
  intros (W & HA & HB & HC) W' C B0 A1; repeat split; auto.
  - intros a E; destruct A1 as [N | S]; [congruence|].
    apply HA; congruence.
  - congruence.
  - rewrite C in H; apply (HC c H).
  - rewrite C in H; apply (HC c H).
  - rewrite C in H; apply (HC c H).
Qed.

Lemma step_sourced (delay : nat) (ev : event)
  (A : list (Args Arg)) (B : list Callback) (s : State) :
  sourced A B s ->
  sourced (A ++ triggered [ev]) (B ++ rebound [ev]) (step delay ev s).
Proof.
  intros S; pose proof S as (W & HA & HB & HC).
  pose proof (step_one_timer Arg Err delay ev s W) as W'.
  destruct ev as [args| | |t|cb]; cbn [step] in *; simpl triggered;
    simpl rebound; rewrite ?app_nil_r.
  - destruct (debounced_fields Arg Err delay args s)
      as (_ & A1 & _ & _ & C & B1 & _).
    repeat split; auto.
    + intros a E; rewrite A1 in E; inversion E; subst.
      apply in_or_app; right; left; reflexivity.
    + rewrite B1; exact HB.
    + rewrite C in H; apply in_or_app; left; apply (HC c H).
    + rewrite C in H; apply (HC c H).
    + rewrite C in H; apply (HC c H).
  - apply (sourced_same A B s); auto; unfold cancel;
      destruct (timeoutRef s); simpl; auto.
  - destruct (timeoutRef s) as [h|] eqn:T.
    + destruct (argsRef s) as [args|] eqn:A0.
      * destruct (flush_calls Arg Err s h args T A0) as (C & _).
        apply (sourced_call A B s _ args (clock s)); auto.
        -- destruct (callbackRef s args) as [|e] eqn:R.
           ++ rewrite (flush_returned Arg Err s h args T A0 R); reflexivity.
           ++ rewrite (flush_threw Arg Err s h args e T A0 R); reflexivity.
        -- destruct (callbackRef s args) as [|e] eqn:R.
           ++ rewrite (flush_returned Arg Err s h args T A0 R); auto.
           ++ rewrite (flush_threw Arg Err s h args e T A0 R); auto.
      * assert (F : flush s = (s, Returned))
          by (unfold flush; rewrite T, A0; reflexivity).
        rewrite F; exact S.
    + rewrite (flush_idle Arg Err s T); exact S.
  - destruct (one_timer_cases Arg Err s W) as [E | (h & d & E & T)].
    + rewrite (advance_nothing_scheduled Arg Err t s E) in *.
      apply (sourced_same A B s); auto.
    + destruct (Nat.le_gt_cases d t) as [L|L].
      * rewrite (advance_due Arg Err t s h d E L) in *.
        destruct (argsRef s) as [args|] eqn:A0.
        -- destruct (fire_calls Arg Err s h d args E A0) as (C & _ & _ & B0).
           apply (sourced_call A B s _ args (Nat.max (clock s) d)); auto.
           simpl; destruct (callbackRef s args) as [|e] eqn:R.
           ++ rewrite (fire_returned Arg Err s h d args E A0 R); auto.
           ++ rewrite (fire_threw Arg Err s h d args e E A0 R); auto.
        -- apply (sourced_same A B s); auto;
             rewrite (fire_no_args Arg Err s h d E A0); simpl; auto.
      * rewrite (advance_not_due Arg Err t s h d E L) in *.
        apply (sourced_same A B s); auto.
  - split; [exact W | split; [exact HA | split]].
    + apply in_or_app; right; left; reflexivity.
    + intros c H; destruct (HC c H) as (H1 & H2 & H3).
      split; [exact H1 | split; [apply in_or_app; left; exact H2 | exact H3]].
Qed.

Lemma run_sourced (delay : nat) (evs : list event) :
  forall (A : list (Args Arg)) (B : list Callback) (s : State),
    sourced A B s ->
    sourced (A ++ triggered evs) (B ++ rebound evs) (run delay evs s).
Proof.
  induction evs as [|ev evs IH]; intros A B s S.
  - simpl; rewrite !app_nil_r; exact S.
  - change (run delay (ev :: evs) s) with (run delay evs (step delay ev s)).
    apply (sourced_mono
             ((A ++ triggered [ev]) ++ triggered evs) _
             ((B ++ rebound [ev]) ++ rebound evs) _).
    + rewrite <- app_assoc; simpl; rewrite app_nil_r; apply incl_refl.
    + rewrite <- app_assoc; simpl; rewrite app_nil_r; apply incl_refl.
    + apply IH, step_sourced, S.
Qed.

(** X1. Whatever the events, every invocation the controller has made
    passed an argument array that some call of the debounced function
    supplied, to an action that was bound at mount or by a later render. *)
Theorem invocations_come_from_triggers
  (delay : nat) (cb : Callback) (evs : list event) (c : Call Arg Err) :
  In c (calls (run delay evs (mount cb))) ->
  In (call_args c) (triggered evs) /\
  In (call_fn c) (cb :: rebound evs) /\
  call_result c = call_fn c (call_args c).
Proof.
  intros H.
  assert (S0 : sourced [] [cb] (mount cb)).
  { repeat split; simpl; auto; try discriminate; contradiction. }
  destruct (run_sourced delay evs [] [cb] (mount cb) S0) as (_ & _ & _ & HC).
  exact (HC c H).
Qed.

(** ** How many invocations *)

Lemma step_count (delay : nat) (ev : event) (s : State) :
  one_timer s -> settled s -> all_returned (step delay ev s) ->
  List.length (calls (step delay ev s)) + held (step delay ev s) <=
  List.length (calls s) + held s + List.length (triggered [ev]).
Proof.
  unfold settled, held; intros W S R.
  destruct ev as [args| | |t|cb]; cbn [step] in *; simpl triggered.
  - destruct (debounced_fields Arg Err delay args s) as (T & _ & _ & _ & C & _).
    rewrite T, C; simpl; destruct (timeoutRef s); lia.
  - unfold cancel; destruct (timeoutRef s) as [h|] eqn:T;
      unfold_stmts; simpl; rewrite ?T; lia.
  - destruct (timeoutRef s) as [h|] eqn:T.
    + destruct S as (_ & (args & A) & _).
      destruct (flush_calls Arg Err s h args T A) as (C & _ & T' & _).
      rewrite T', C, length_app; simpl; lia.
    + rewrite (flush_idle Arg Err s T); simpl; rewrite T; lia.
  - destruct (one_timer_cases Arg Err s W) as [E | (h & d & E & T)].
    + rewrite (advance_nothing_scheduled Arg Err t s E); simpl; lia.
    + rewrite T in *; destruct S as (_ & (args & A) & _).
      destruct (Nat.le_gt_cases d t) as [L|L].
      * rewrite (advance_due Arg Err t s h d E L) in *.
        assert (R' : all_returned (fire h s)) by exact R.
        destruct (fire_calls Arg Err s h d args E A) as (C & _).
        destruct (all_returned_snoc Arg Err s _ _ C R') as (_ & Q); simpl in Q.
        simpl; rewrite (fire_returned Arg Err s h d args E A Q); simpl.
        rewrite length_app; simpl; lia.
      * rewrite (advance_not_due Arg Err t s h d E L); simpl; rewrite T; lia.
  - simpl; lia.
Qed.

Lemma run_count (delay : nat) (evs : list event) :
  forall s : State,
    one_timer s -> (all_returned s -> settled s) ->
    all_returned (run delay evs s) ->
    List.length (calls (run delay evs s)) + held (run delay evs s) <=
    List.length (calls s) + held s + List.length (triggered evs).
Proof.
  induction evs as [|ev evs IH]; intros s W S R; [simpl; lia|].
  change (run delay (ev :: evs) s) with (run delay evs (step delay ev s)) in *.
  pose proof (step_one_timer Arg Err delay ev s W) as W1.
  destruct (run_calls_grow delay evs (step delay ev s) W1) as (e2 & E2).
  pose proof (all_returned_before _ _ e2 E2 R) as R1.
  destruct (step_calls_grow delay ev s W) as (e1 & E1).
  pose proof (all_returned_before _ _ e1 E1 R1) as R0.
  pose proof (step_count delay ev s W (S R0) R1) as C1.
  pose proof (IH (step delay ev s) W1
                (step_settled Arg Err delay ev s W S) R) as C2.
  assert (E : triggered (ev :: evs) = triggered [ev] ++ triggered evs)
    by (simpl; rewrite app_nil_r; reflexivity).
  rewrite E, length_app; lia.
Qed.

(** X2. As long as no invocation has thrown, the action has been invoked
    at most as often as the debounced function was called, and one call less
    while an execution is still pending. *)
Theorem invocations_bounded_by_triggers
  (delay : nat) (cb : Callback) (evs : list event) :
  all_returned (run delay evs (mount cb)) ->
  List.length (calls (run delay evs (mount cb))) + held (run delay evs (mount cb))
  <= List.length (triggered evs).
Proof.
  intros R.
  assert (S0 : all_returned (mount cb) -> settled (mount cb)).
  { intros _; unfold settled; simpl; auto. }
  pose proof (run_count delay evs (mount cb) I S0 R) as C.
  simpl in C; exact C.
Qed.

(** ** Unmounting *)

(** X3. The cleanup that runs at unmount clears the timer the controller
    has pending, so the action is not invoked afterwards, however much time
    passes. *)
Theorem unmount_cancels_pending
  (delay : nat) (cb : Callback) (s : State) (T : nat) :
  reachable delay cb s ->
  timers (fst (unmount s)) = [] /\
  calls (fst (unmount s)) = calls s /\
  calls (advance T (fst (unmount s))) = calls s.
Proof.
  intros H; pose proof (reachable_one_timer Arg Err delay cb s H) as W.
  assert (E : timers (fst (unmount s)) = []).
  { unfold unmount; destruct (timeoutRef s) as [h|] eqn:Tm; simpl.
    - apply (clear_own_timer Arg Err s h W Tm).
    - apply (no_handle_no_timer Arg Err s W Tm). }
  assert (C : calls (fst (unmount s)) = calls s).
  { unfold unmount; destruct (timeoutRef s); reflexivity. }
  split; [exact E | split; [exact C|]].
  rewrite (advance_nothing_scheduled Arg Err T _ E); exact C.
Qed.

End Runs.

Local Open Scope string_scope.

Lemma invocations_come_from_triggers_witness :
  In (mkCall saves ["a"] 300 Returned)
     (calls (run 300 [Trigger ["a"]; Elapse 300] (mount saves))) /\
  In ["a"] (triggered [Trigger (Err:=string) ["a"]; Elapse 300]).
Proof.
  assert (H : In (mkCall saves ["a"] 300 Returned)
                 (calls (run 300 [Trigger ["a"]; Elapse 300] (mount saves))))
    by (vm_compute; left; reflexivity).
  split; [exact H|].
  apply (invocations_come_from_triggers string string 300 saves
           [Trigger ["a"]; Elapse 300] (mkCall saves ["a"] 300 Returned) H).
Defined.

Lemma invocations_bounded_by_triggers_witness :
  all_returned (run 300 (burst_events three_calls ++ [Elapse 450]) (mount saves)) /\
  List.length (calls (run 300 (burst_events three_calls ++ [Elapse 450])
                        (mount saves))) + 0 <= 3.
Proof.
  assert (R : all_returned
                (run 300 (burst_events three_calls ++ [Elapse 450]) (mount saves)))
    by (vm_compute; repeat constructor).
  split; [exact R|].
  pose proof (invocations_bounded_by_triggers string string 300 saves
                (burst_events three_calls ++ [Elapse 450]) R) as B.
  vm_compute in B |- *; exact B.
Defined.

(** The bound needs its condition: when the timer callback throws, a later
    flush invokes the action a second time for the one trigger. *)
Lemma thrown_invocation_can_repeat :
  List.length (calls (run 300 retried (mount fails))) = 2 /\
  List.length (triggered retried) = 1.
Proof. split; vm_compute; reflexivity. Qed.

Lemma unmount_cancels_pending_witness :
  reachable 300 saves (armed saves) /\
  calls (advance 1000 (fst (unmount (armed saves)))) = [].
Proof.
  assert (R : reachable 300 saves (armed saves))
    by exact (@reach_step _ _ 300 saves (mount saves) (Trigger ["a"])
                (@reach_mount _ _ 300 saves)).
  split; [exact R|].
  apply (unmount_cancels_pending string string 300 saves (armed saves) 1000 R).
Defined.


End DebounceTraceFacts.

(** * More about the toast provider *)

Module ToastTraceFacts.

Import Toast ToastTrace ToastFacts.

Local Open Scope Z_scope.

(** ** Timers fire once, and remove the toasts they name *)

Lemma pop_due_rest (t : Z) (l : list (Z * string)) :
  forall x rest,
    pop_due t l = Some (x, rest) ->
    filter (fun tm => t <? fst tm) rest = filter (fun tm => t <? fst tm) l.
Proof.
  induction l as [|[d i] r IH]; simpl; intros x rest; [discriminate|].
  destruct (pop_due t r) as [[[d' i'] r']|] eqn:P.
  - destruct (pop_due_some t r _ _ P) as (L & _).
    specialize (IH _ _ eq_refl); simpl in L.
    destruct (Z.leb_spec d d'); intros Q; inversion Q; subst; simpl.
    + destruct (Z.ltb_spec t d); [lia | reflexivity].
    + rewrite IH; reflexivity.
  - destruct (Z.leb_spec d t); intros Q; inversion Q; subst; simpl.
    destruct (Z.ltb_spec t d); [lia | reflexivity].
Qed.

Lemma expires_pop (t : Z) (l rest : list (Z * string)) (x : Z * string)
  (i : string) :
  pop_due t l = Some (x, rest) ->
  expires t l i = String.eqb (snd x) i || expires t rest i.
Proof.
  intros P; destruct (pop_due_some t l x rest P) as (L & _ & M).
  apply eq_true_iff_eq; unfold expires.
  rewrite orb_true_iff, !existsb_exists; split.
  - intros (y & I & H); apply M in I; destruct I as [-> | I].
    + apply andb_true_iff in H; left; apply H.
    + right; exists y; auto.
  - intros [H | (y & I & H)].
    + exists x; split; [apply M; auto|].
      apply andb_true_iff; split; [apply Z.leb_le; exact L | exact H].
    + exists y; split; [apply M; auto | exact H].
Qed.

Lemma filter_twice {A : Type} (f g : A -> bool) (l : list A) :
  filter f (filter g l) = filter (fun x => g x && f x) l.
Proof.
  induction l as [|x l IH]; simpl; [reflexivity|].
  destruct (g x); simpl; [destruct (f x)|]; rewrite IH; reflexivity.
Qed.

Lemma run_due_effect (fuel : nat) (t : Z) :
  forall s : State,
    (List.length (timers s) <= fuel)%nat ->
    timers (run_due fuel t s) = filter (fun tm => t <? fst tm) (timers s) /\
    toasts (run_due fuel t s) =
      filter (fun x => negb (expires t (timers s) (id x))) (toasts s).
Proof.
  induction fuel as [|fuel IH]; intros s F.
  - destruct (timers s) eqn:E; [|simpl in F; lia].
    simpl; rewrite E; simpl; split; [reflexivity|].
    symmetry; apply forallb_filter_id, forallb_forall; auto.
  - simpl; destruct (pop_due t (timers s)) as [[[due j] rest]|] eqn:P.
    + destruct (pop_due_some t _ _ _ P) as (_ & N & _).
      set (s1 := dismiss j (set_now (Z.max (now s) due) (set_timers rest s))).
      destruct (IH s1) as (A & B); [unfold s1; simpl; lia|].
      rewrite A, B; unfold s1; simpl; split.
      * apply (pop_due_rest t _ _ _ P).
      * rewrite filter_twice; apply filter_ext; intros x.
        rewrite (expires_pop t _ _ _ (id x) P); simpl.
        rewrite negb_orb, (String.eqb_sym j (id x)); reflexivity.
    + pose proof (pop_due_none t _ P) as D; split.
      * symmetry; apply forallb_filter_id, forallb_forall.
        intros x I; rewrite Forall_forall in D; apply Z.ltb_lt, D, I.
      * symmetry; apply forallb_filter_id, forallb_forall.
        intros x _; apply negb_true_iff, not_true_iff_false.
        unfold expires; rewrite existsb_exists; intros (y & I & H).
        rewrite Forall_forall in D; specialize (D y I).
        apply andb_true_iff in H; destruct H as [H _].
        apply Z.leb_le in H; lia.
Qed.

Lemma advance_effect (T : Z) (s : State) :
  timers (advance T s) = filter (fun tm => T <? fst tm) (timers s) /\
  toasts (advance T s) =
    filter (fun x => negb (expires T (timers s) (id x))) (toasts s).
Proof.
  unfold advance; simpl; apply run_due_effect, Nat.le_refl.
Qed.

(** X4. When time passes, exactly the timers that are due leave the
    table, each fired once, and exactly the toasts whose id one of them
    carries leave the list; the other toasts stay, in their order. *)
Theorem elapse_removes_expired (T : Z) (s : State) :
  timers (advance T s) = filter (fun tm => T <? fst tm) (timers s) /\
  toasts (advance T s) =
    filter (fun x => negb (expires T (timers s) (id x))) (toasts s).
Proof. exact (advance_effect T s). Qed.

Lemma notify_state (rnd : string) (ty : ToastType) (msg : string)
  (options : option ToastOptions) (s : State) :
  let toast := made rnd ty msg options s in
  let s' := snd (notify rnd ty msg options s) in
  toasts s' = toasts s ++ [toast] /\
  timers s' =
    (if 0 <? duration toast
     then timers s ++ [(now s + duration toast, id toast)]
     else timers s).
Proof.
  unfold notify; cbv zeta.
  change (mkToast _ _ _ _ _ _) with (made rnd ty msg options s).
  destruct (0 <? duration (made rnd ty msg options s)); split; reflexivity.
Qed.

(** X5. A toast created with a duration above zero is still in the list
    at every time before that duration has passed, provided no timer already
    pending carries its id. *)
Theorem toast_shown_until_due
  (rnd : string) (ty : ToastType) (msg : string)
  (options : option ToastOptions) (s : State) (T : Z) :
  let toast := made rnd ty msg options s in
  0 < duration toast ->
  T < now s + duration toast ->
  (forall tm, In tm (timers s) -> snd tm <> id toast) ->
  In toast (toasts (advance T (snd (notify rnd ty msg options s)))).
Proof.
  intros toast D L F.
  destruct (notify_state rnd ty msg options s) as (Ts & Tm).
  fold toast in Ts, Tm.
  destruct (Z.ltb_spec 0 (duration toast)); [|lia].
  destruct (advance_effect T (snd (notify rnd ty msg options s))) as (_ & E).
  rewrite E, Ts, Tm; apply filter_In; split.
  - apply in_or_app; right; left; reflexivity.
  - apply negb_true_iff, not_true_iff_false.
    unfold expires; rewrite existsb_exists; intros (y & I & H').
    apply andb_true_iff in H'; destruct H' as [H1 H2].
    apply in_app_or in I; destruct I as [I | [<- | []]].
    + apply (F y I), String.eqb_eq, H2.
    + cbn [fst] in H1; apply Z.leb_le in H1; lia.
Qed.

Lemma toast_shown_until_due_witness :
  0 < duration (made "k3x9q2a" Success "done" (Some brief) mount) /\
  In (made "k3x9q2a" Success "done" (Some brief) mount) (toasts (advance 2999 showing)).
Proof.
  assert (D : 0 < duration (made "k3x9q2a" Success "done" (Some brief) mount))
    by (simpl; lia).
  split; [exact D|].
  apply (toast_shown_until_due "k3x9q2a" Success "done" (Some brief) mount 2999 D).
  - simpl; lia.
  - intros tm [].
Defined.

(** ** Without [notify] the list only shrinks *)

Lemma step_shrinks (ev : event) (s : State) :
  is_notify ev = false -> incl (toasts (step ev s)) (toasts s).
Proof.
  destruct ev as [rnd ty msg options|i| |t]; cbn [step]; intros N.
  - discriminate N.
  - intros x I; apply (dismiss_removes i s x I).
  - intros x [].
  - destruct (run_due_log (List.length (timers s)) t s) as (_ & _ & S & _).
    exact S.
Qed.

(** X6. [dismissAll] empties the list and cancels no timer; the timers
    that fire afterwards find nothing to remove, and until [notify] is called
    again the list stays empty whatever else happens. *)
Theorem dismissAll_stays_empty (s : State) (evs : list event) :
  no_notify evs ->
  timers (dismissAll s) = timers s /\
  toasts (run evs (dismissAll s)) = [].
Proof.
  intros N; split; [reflexivity|].
  assert (G : forall evs s', no_notify evs -> toasts s' = [] ->
                             toasts (run evs s') = []).
  { clear; induction evs as [|ev evs IH]; intros s' N E; [exact E|].
    unfold no_notify in N; simpl in N; apply andb_true_iff in N.
    destruct N as [N1 N2]; apply negb_true_iff in N1.
    apply (IH (step ev s') N2).
    pose proof (step_shrinks ev s' N1) as S; rewrite E in S.
    apply incl_l_nil, S. }
  apply G; [exact N | reflexivity].
Qed.

Lemma dismissAll_stays_empty_witness :
  no_notify [Elapse 3000; Dismiss "toast-0-k3x9q2a"; Elapse 9000] /\
  timers (dismissAll showing) = [(3000, "toast-0-k3x9q2a"%string)] /\
  toasts (run [Elapse 3000; Dismiss "toast-0-k3x9q2a"; Elapse 9000]
            (dismissAll showing)) = [].
Proof.
  split; [reflexivity|].
  apply (dismissAll_stays_empty showing
           [Elapse 3000; Dismiss "toast-0-k3x9q2a"; Elapse 9000] eq_refl).
Defined.

(** ** Ids *)

Lemma digits_dashless (d : Decimal.uint) :
  dashless (NilEmpty.string_of_uint d) = true.
Proof. induction d; simpl; auto. Qed.

Lemma split_at_dash (a : string) :
  forall b r1 r2 : string,
    dashless a = true -> dashless b = true ->
    (a ++ String "-" r1)%string = (b ++ String "-" r2)%string ->
    a = b /\ r1 = r2.
Proof.
  induction a as [|c a IH]; intros [|c' b] r1 r2 Da Db E; simpl in *.
  - inversion E; auto.
  - inversion E; subst c'; discriminate Db.
  - inversion E; subst c; discriminate Da.
  - inversion E; subst c'.
    apply andb_true_iff in Da, Db.
    destruct (IH b r1 r2 (proj2 Da) (proj2 Db) H1) as [-> ->]; auto.
Qed.

Lemma decimal_of_time (t : Z) :
  0 <= t ->
  dashless (NilZero.string_of_int (Z.to_int t)) = true /\
  NilZero.int_of_string (NilZero.string_of_int (Z.to_int t)) = Some (Z.to_int t).
Proof.
  intros L; destruct t as [|p|p]; [| |lia].
  - split; reflexivity.
  - split.
    + simpl; unfold NilZero.string_of_uint.
      destruct (Pos.to_uint p); try reflexivity; apply digits_dashless.
    + apply NilZero.isi; simpl; intros E; inversion E.
      apply (DecimalPos.Unsigned.to_uint_nonnil p); assumption.
Qed.

(** X7. The id [notify] builds determines the time and the random suffix
    it was built from: two toasts created at different times, or with
    different suffixes, carry different ids. *)
Theorem make_id_injective (t1 t2 : Z) (r1 r2 : string) :
  0 <= t1 -> 0 <= t2 ->
  make_id t1 r1 = make_id t2 r2 -> t1 = t2 /\ r1 = r2.
Proof.
  intros L1 L2 E; unfold make_id in E; simpl in E.
  inversion E as [E'].
  destruct (decimal_of_time t1 L1) as (D1 & P1).
  destruct (decimal_of_time t2 L2) as (D2 & P2).
  destruct (split_at_dash _ _ _ _ D1 D2 E') as (S & R).
  split; [|exact R].
  rewrite S in P1; rewrite P1 in P2; inversion P2 as [Q].
  rewrite <- (DecimalZ.of_to t1), <- (DecimalZ.of_to t2), Q; reflexivity.
Qed.

Lemma make_id_injective_witness :
  make_id 1700000000000 "k3x9q2a" = make_id 1700000000000 "k3x9q2a" /\
  1700000000000 = 1700000000000 /\ "k3x9q2a"%string = "k3x9q2a"%string.
Proof.
  split; [reflexivity|].
  apply (make_id_injective 1700000000000 1700000000000 "k3x9q2a" "k3x9q2a");
    [lia | lia | reflexivity].
Defined.

End ToastTraceFacts.

(** * Facts about the toast container *)

Module ToastContainerFacts.

Import Toast ToastContainer.

Lemma same_position_eq (p q : ToastPosition) :
  same_position p q = true <-> p = q.
Proof. destruct p, q; simpl; split; congruence. Qed.

Lemma get_push (q : ToastPosition) (toast : Toast) (g : Grouped)
  (p : ToastPosition) :
  get (push q toast g) p =
    if same_position q p then get g p ++ [toast] else get g p.
Proof. destruct q, p; reflexivity. Qed.

Lemma fold_push (l : list Toast) :
  forall (g : Grouped) (p : ToastPosition),
    get (fold_left (fun grouped toast => push (position toast) toast grouped) l g) p
    = get g p ++ filter (fun toast => same_position (position toast) p) l.
Proof.
  induction l as [|x l IH]; intros g p; simpl.
  - rewrite app_nil_r; reflexivity.
  - rewrite IH, get_push.
    destruct (same_position (position x) p); [|reflexivity].
    rewrite <- app_assoc; reflexivity.
Qed.

Lemma get_grouped (toasts : list Toast) (p : ToastPosition) :
  get (groupedToasts toasts) p =
    filter (fun toast => same_position (position toast) p) toasts.
Proof.
  unfold groupedToasts; rewrite fold_push; destruct p; reflexivity.
Qed.

(** X8. Grouping puts every toast under the key of its own position and
    nowhere else, and keeps the toasts of a position in the order of the
    provider's list. *)
Theorem grouped_by_position (toasts : list Toast) (p : ToastPosition) :
  get (groupedToasts toasts) p =
    filter (fun toast => same_position (position toast) p) toasts.
Proof. exact (get_grouped toasts p). Qed.

(** ** What is rendered *)

Lemma filter_split {A : Type} (f g : A -> bool) (l : list A) :
  (forall x, f x = true -> g x = true -> False) ->
  Permutation (filter (fun x => f x || g x) l) (filter f l ++ filter g l).
Proof.
  intros D; induction l as [|x l IH]; simpl; [constructor|].
  destruct (f x) eqn:F, (g x) eqn:G; simpl.
  - elim (D x F G).
  - constructor; exact IH.
  - apply Permutation_cons_app; exact IH.
  - exact IH.
Qed.

Lemma groups_cover (toasts : list Toast) (ks : list ToastPosition) :
  NoDup ks ->
  Permutation
    (flat_map (fun p => filter (fun t => same_position (position t) p) toasts) ks)
    (filter (fun t => existsb (same_position (position t)) ks) toasts).
Proof.
  induction 1 as [|k ks N _ IH]; simpl.
  - rewrite filter_false; constructor.
  - symmetry; etransitivity.
    + apply filter_split; intros t F G.
      apply same_position_eq in F; apply existsb_exists in G.
      destruct G as (q & I & E); apply same_position_eq in E.
      apply N; congruence.
    + apply Permutation_app_head; symmetry; exact IH.
Qed.

Lemma container_children (p : ToastPosition) (cn : string) (g : list Toast) :
  match (if Nat.eqb (List.length g) 0 then None else Some (mkContainer p cn g)) with
  | Some c => children c
  | None => []
  end = g.
Proof. destruct g; reflexivity. Qed.

Lemma shown_groups (toasts : list Toast) :
  shown toasts =
    flat_map (fun p => filter (fun t => same_position (position t) p) toasts) keys.
Proof.
  unfold shown, render.
  rewrite flat_map_concat_map, map_map, <- flat_map_concat_map.
  apply flat_map_ext; intros p.
  cbv zeta; rewrite container_children; apply get_grouped.
Qed.

(** X9. The container shows every toast of the provider exactly once: the
    toasts of the rendered containers are a rearrangement of the provider's
    list. A container is rendered only for a position that has a toast, holds
    exactly the toasts of that position in the provider's order, and every
    toast is in the container of its position. *)
Theorem render_shows_each_toast_once (toasts : list Toast) :
  Permutation (shown toasts) toasts /\
  (forall c, In (Some c) (render toasts) ->
     children c <> [] /\
     children c = filter (fun t => same_position (position t) (key c)) toasts) /\
  (forall t, In t toasts ->
     exists c, In (Some c) (render toasts) /\ key c = position t /\
               In t (children c)).
Proof.
  split; [|split].
  - rewrite shown_groups.
    etransitivity; [apply groups_cover; repeat constructor; simpl; intuition congruence|].
    rewrite (forallb_filter_id _ toasts); [reflexivity|].
    apply forallb_forall; intros t _; destruct (position t); reflexivity.
  - intros c I; unfold render in I; apply in_map_iff in I.
    destruct I as (p & E & _); cbv zeta in E.
    destruct (get (groupedToasts toasts) p) as [|x r] eqn:G; [discriminate|].
    simpl in E; inversion E; subst c; simpl.
    split; [discriminate | rewrite <- G; apply get_grouped].
  - intros t I.
    assert (G : In t (get (groupedToasts toasts) (position t))).
    { rewrite get_grouped; apply filter_In; split; [exact I|].
      apply same_position_eq; reflexivity. }
    destruct (get (groupedToasts toasts) (position t)) as [|x r] eqn:E;
      [contradiction|].
    exists (mkContainer (position t)
              ("fixed z-50 flex flex-col gap-2 " ++ positionClasses (position t)
               ++ " " ++ (if isBottom (position t) then "flex-col-reverse" else ""))%string
              (x :: r)).
    split; [|split; [reflexivity | exact G]].
    unfold render; apply in_map_iff; exists (position t); split.
    + cbv zeta; rewrite E; reflexivity.
    + destruct (position t); simpl; tauto.
Qed.

End ToastContainerFacts.

(** * Facts about the plain debounced callback *)

Module DebounceCallbackFacts.

Import DebounceCallback.

Section Plain.

Variable Arg : Type.
Variable Err : Type.

Abbreviation State := (State Arg Err).
Abbreviation Callback := (Debounce.Callback Arg Err).
Abbreviation event := (event Arg Err).
Abbreviation Args := (Debounce.Args Arg).

Lemma plain_is_handle_same (h : Debounce.handle) (d : nat) (args : Args) :
  is_handle h (h, d, args) = true.
Proof. unfold is_handle; simpl; apply Pos.eqb_refl. Qed.

Lemma plain_fire_sole (s : State) (h : Debounce.handle) (d : nat) (args : Args) :
  timers s = [(h, d, args)] ->
  fire h s =
    mkState (callbackRef s) (timeoutRef s) (Nat.max (clock s) d)
      (next_handle s) []
      (calls s ++ [Debounce.mkCall (callbackRef s) args (Nat.max (clock s) d)
                     (callbackRef s args)])
      (uncaught s ++
       match callbackRef s args with
       | Debounce.Returned => []
       | Debounce.Threw e => [e]
       end).
Proof.
  intros E; unfold fire; rewrite E; simpl; rewrite plain_is_handle_same.
  unfold on_timeout; simpl.
  destruct (callbackRef s args); simpl; rewrite ?app_nil_r; reflexivity.
Qed.

Lemma plain_advance_nothing_scheduled (t : nat) (s : State) :
  timers s = [] ->
  advance t s =
    mkState (callbackRef s) (timeoutRef s) (Nat.max (clock s) t)
      (next_handle s) [] (calls s) (uncaught s).
Proof. intros E; unfold advance; rewrite E; simpl; rewrite E; reflexivity. Qed.

Lemma plain_advance_not_due (t : nat) (s : State) (h : Debounce.handle) (d : nat)
  (args : Args) :
  timers s = [(h, d, args)] -> t < d ->
  advance t s =
    mkState (callbackRef s) (timeoutRef s) (Nat.max (clock s) t)
      (next_handle s) [(h, d, args)] (calls s) (uncaught s).
Proof.
  intros E L; unfold advance; rewrite E; simpl; rewrite E; simpl.
  destruct (Nat.leb_spec d t); [lia|]; rewrite E; reflexivity.
Qed.

Lemma plain_advance_due (t : nat) (s : State) (h : Debounce.handle) (d : nat)
  (args : Args) :
  timers s = [(h, d, args)] -> d <= t ->
  advance t s =
    mkState (callbackRef s) (timeoutRef s) (Nat.max (Nat.max (clock s) d) t)
      (next_handle s) []
      (calls s ++ [Debounce.mkCall (callbackRef s) args (Nat.max (clock s) d)
                     (callbackRef s args)])
      (uncaught s ++
       match callbackRef s args with
       | Debounce.Returned => []
       | Debounce.Threw e => [e]
       end).
Proof.
  intros E L; unfold advance; rewrite E; simpl; rewrite E; simpl.
  destruct (Nat.leb_spec d t); [|lia].
  rewrite (plain_fire_sole s h d args E); reflexivity.
Qed.

Lemma alike_one_timer (sa : Debounce.State Arg Err) (s : State) :
  alike sa s -> Debounce.one_timer sa.
Proof.
  intros (_ & _ & _ & _ & _ & [[E _] | (h & d & args & E & _ & T & _)]);
    unfold Debounce.one_timer; rewrite E; auto.
Qed.

Lemma debouncedCallback_state (delay : nat) (args : Args) (s : State) :
  (timers s = [] \/
   exists h d a, timers s = [(h, d, a)] /\ timeoutRef s = Some h) ->
  debouncedCallback delay args s =
    mkState (callbackRef s) (Some (next_handle s)) (clock s)
      (Pos.succ (next_handle s)) [(next_handle s, clock s + delay, args)]
      (calls s) (uncaught s).
Proof.
  unfold debouncedCallback, setTimeout, clearTimeout.
  intros [E | (h & d & a & E & T)].
  - destruct (timeoutRef s); simpl; rewrite E; reflexivity.
  - rewrite T; simpl; rewrite E; simpl; rewrite plain_is_handle_same; reflexivity.
Qed.

(** ** The advanced hook, used without cancel and flush *)

Lemma debounced_next_handle (delay : nat) (args : Args)
  (sa : Debounce.State Arg Err) :
  Debounce.next_handle (fst (Debounce.debounced delay args sa)) =
  Pos.succ (Debounce.next_handle sa).
Proof.
  DebounceFacts.unfold_stmts; simpl.
  destruct (Debounce.timeoutRef sa); reflexivity.
Qed.

Lemma step_alike (delay : nat) (ev : event) (sa : Debounce.State Arg Err)
  (s : State) :
  alike sa s ->
  alike (Debounce.step delay (advanced ev) sa) (step delay ev s).
Proof.
  intros A; pose proof (alike_one_timer sa s A) as W.
  destruct A as (Hcb & Hck & Hnh & Hcs & Hun & Ht).
  destruct ev as [args|t|cb]; simpl advanced; cbn [Debounce.step step].
  - rewrite (debouncedCallback_state delay args s)
      by (destruct Ht as [[_ E] | (h & d & a & _ & E & _ & T & _)];
          [left; exact E | right; exists h, d, a; auto]).
    destruct (DebounceFacts.debounced_fields Arg Err delay args sa)
      as (T & Ar & _ & K & C & B & U & _).
    pose proof (DebounceFacts.debounced_timers Arg Err delay args sa W) as M.
    pose proof (debounced_next_handle delay args sa) as N.
    unfold alike; simpl; rewrite B, K, N, C, U, M, T, Ar.
    split; [exact Hcb | split; [exact Hck | split; [congruence|]]].
    split; [exact Hcs | split; [exact Hun|]].
    right; exists (next_handle s), (clock s + delay), args.
    rewrite Hnh, Hck; repeat split.
  - destruct Ht as [[Ea E] | (h & d & args & Ea & E & Ta & T & Ar)].
    + rewrite (DebounceFacts.advance_nothing_scheduled Arg Err t sa Ea),
        (plain_advance_nothing_scheduled t s E).
      unfold alike; simpl; rewrite Hck; repeat split; auto.
    + destruct (Nat.le_gt_cases d t) as [L|L].
      * rewrite (DebounceFacts.advance_due Arg Err t sa h d Ea L),
          (plain_advance_due t s h d args E L).
        rewrite <- Hcb, <- Hck, <- Hnh, <- Hcs, <- Hun.
        destruct (Debounce.callbackRef sa args) as [|e] eqn:R.
        -- rewrite (DebounceFacts.fire_returned Arg Err sa h d args Ea Ar R).
           unfold alike; simpl; rewrite app_nil_r; repeat split; auto.
        -- rewrite (DebounceFacts.fire_threw Arg Err sa h d args e Ea Ar R).
           unfold alike; simpl; repeat split; auto.
      * rewrite (DebounceFacts.advance_not_due Arg Err t sa h d Ea L),
          (plain_advance_not_due t s h d args E L).
        unfold alike; simpl; rewrite Hck; repeat split; auto.
        right; exists h, d, args; auto.
  - unfold alike; simpl; repeat split; auto.
Qed.

Lemma run_alike (delay : nat) (evs : list event) :
  forall (sa : Debounce.State Arg Err) (s : State),
    alike sa s ->
    alike (Debounce.run delay (map (@advanced Arg Err) evs) sa) (run delay evs s).
Proof.
  induction evs as [|ev evs IH]; intros sa s A; [exact A|].
  apply (IH (Debounce.step delay (advanced ev) sa) (step delay ev s)).
  apply step_alike, A.
Qed.

Lemma mount_alike (cb : Callback) : alike (Debounce.mount cb) (mount cb).
Proof. unfold alike; simpl; repeat split; auto. Qed.

(** X10. Used without [cancel] and [flush], the advanced hook invokes the
    action exactly as the plain debounced callback does: after the same
    triggers, renders and passage of time both have made the same invocations,
    with the same arguments, at the same times and with the same outcomes, and
    the same errors have reached the host. *)
Theorem advanced_hook_agrees_with_plain
  (delay : nat) (cb : Callback) (evs : list event) :
  Debounce.calls (Debounce.run delay (map (@advanced Arg Err) evs)
                    (Debounce.mount cb)) =
    calls (run delay evs (mount cb)) /\
  Debounce.uncaught (Debounce.run delay (map (@advanced Arg Err) evs)
                       (Debounce.mount cb)) =
    uncaught (run delay evs (mount cb)).
Proof.
  destruct (run_alike delay evs _ _ (mount_alike cb)) as (_ & _ & _ & C & U & _).
  split; [exact C | exact U].
Qed.

(** ** At most one timer, and unmounting *)

Lemma run_timers (delay : nat) (cb : Callback) (evs : list event) :
  timers (run delay evs (mount cb)) = [] \/
  exists h d args,
    timers (run delay evs (mount cb)) = [(h, d, args)] /\
    timeoutRef (run delay evs (mount cb)) = Some h.
Proof.
  destruct (run_alike delay evs _ _ (mount_alike cb))
    as (_ & _ & _ & _ & _ & [[_ E] | (h & d & a & _ & E & _ & T & _)]).
  - left; exact E.
  - right; exists h, d, a; auto.
Qed.

(** X11. The plain hook never has more than one timer scheduled, and the
    cleanup that runs at unmount clears it: afterwards the action is not
    invoked however much time passes. *)
Theorem plain_unmount_cancels_pending
  (delay : nat) (cb : Callback) (evs : list event) (T : nat) :
  let s := run delay evs (mount cb) in
  List.length (timers s) <= 1 /\
  timers (unmount s) = [] /\
  calls (advance T (unmount s)) = calls s.
Proof.
  intros s.
  assert (E : timers (unmount s) = [] /\ calls (unmount s) = calls s).
  { unfold unmount.
    destruct (run_timers delay cb evs) as [E | (h & d & a & E & Tm)]; fold s in E.
    - destruct (timeoutRef s); simpl; rewrite ?E; auto.
    - fold s in Tm; rewrite Tm; simpl; rewrite E; simpl.
      rewrite plain_is_handle_same; auto. }
  destruct E as (E & C); split; [|split; [exact E|]].
  - destruct (run_timers delay cb evs) as [E' | (h & d & a & E' & _)];
      fold s in E'; rewrite E'; simpl; lia.
  - rewrite (plain_advance_nothing_scheduled T _ E); simpl; exact C.
Qed.

(** ** A burst of calls *)

Lemma advanced_burst (l : list (nat * Args)) :
  map (@advanced Arg Err) (burst_events l) = Debounce.burst_events l.
Proof.
  induction l as [|c l IH]; [reflexivity|].
  simpl; rewrite <- IH; reflexivity.
Qed.

(** X12. A burst of calls of the plain debounced callback, each less
    than [delay] after the one before, leads to one invocation: none while
    less than [delay] has passed since the last call, and from then on exactly
    one, made [delay] after the last call with the arguments of that call. *)
Theorem plain_burst_runs_once
  (delay : nat) (cb : Callback) (first : nat * Args)
  (rest : list (nat * Args)) (T : nat) :
  Debounce.spaced delay (fst first) rest ->
  let final := last rest first in
  let s := run delay (burst_events (first :: rest) ++ [Elapse T]) (mount cb) in
  (T < fst final + delay -> calls s = []) /\
  (fst final + delay <= T ->
   calls s = [Debounce.mkCall cb (snd final) (fst final + delay)
                (cb (snd final))]).
Proof.
  intros Sp final s.
  destruct (run_alike delay (burst_events (first :: rest) ++ [Elapse T]) _ _
              (mount_alike cb)) as (_ & _ & _ & C & _).
  fold s in C; rewrite <- C; clear C s.
  rewrite map_app, advanced_burst; unfold Debounce.run; rewrite fold_left_app.
  fold (Debounce.run delay (Debounce.burst_events (first :: rest))
          (Debounce.mount cb)).
  simpl map; cbn [fold_left Debounce.step].
  destruct (DebounceFacts.trigger_at Arg Err delay (fst first) (snd first)
              (Debounce.mount cb) I (Forall_nil _) (Nat.le_0_l _))
    as (Wc & Cc & Bc).
  destruct (DebounceFacts.burst_waiting Arg Err delay rest (fst first)
              (snd first) _ Wc Sp) as (Wf & Cf & Bf).
  replace (last rest (fst first, snd first)) with final in Wf
    by (destruct first; reflexivity).
  change (Debounce.run delay (Debounce.burst_events rest)
            (Debounce.step delay (Debounce.Trigger (snd first))
               (Debounce.step delay (Debounce.Elapse (fst first))
                  (Debounce.mount cb))))
    with (Debounce.run delay (Debounce.burst_events (first :: rest))
            (Debounce.mount cb)) in Wf, Cf, Bf.
  destruct (DebounceFacts.waiting_advance Arg Err delay _ _ _ Wf)
    as (Before & After).
  split; intros L.
  - rewrite (Before T L), Cf, Cc; reflexivity.
  - destruct (After T L) as (X & _); rewrite X, Cf, Cc, Bf, Bc; reflexivity.
Qed.

End Plain.

Lemma plain_burst_runs_once_witness :
  Debounce.spaced 300 0 [(100, ["b"%string]); (150, ["c"%string])] /\
  calls (run 300 three_calls_then_wait (mount Debounce.saves)) =
    [Debounce.mkCall Debounce.saves ["c"%string] 450 Debounce.Returned].
Proof.
  assert (Sp : Debounce.spaced 300 0 [(100, ["b"%string]); (150, ["c"%string])])
    by (simpl; lia).
  split; [exact Sp|].
  destruct (plain_burst_runs_once string string 300 Debounce.saves
              (0, ["a"%string]) [(100, ["b"%string]); (150, ["c"%string])] 450 Sp)
    as (_ & A).
  apply A; simpl; lia.
Defined.


End DebounceCallbackFacts.

(** * Facts about the debounced value *)

Module DebounceValueFacts.

Import DebounceValue.

Section Value.

Variable T : Type.
Variable same : T -> T -> bool.

Abbreviation State := (State T).
Abbreviation event := (event T).

Lemma value_is_handle_same (h : Debounce.handle) (d : nat) (v : T) :
  is_handle h (h, d, v) = true.
Proof. unfold is_handle; simpl; apply Pos.eqb_refl. Qed.

Lemma value_advance_nothing_scheduled (t : nat) (s : State) :
  timers s = [] ->
  advance t s =
    mkState (debouncedValue s) (deps s) (timer s) (Nat.max (clock s) t)
      (next_handle s) [].
Proof. intros E; unfold advance; rewrite E; simpl; rewrite E; reflexivity. Qed.

Lemma value_advance_not_due (t : nat) (s : State) (h : Debounce.handle) (d : nat)
  (v : T) :
  timers s = [(h, d, v)] -> t < d ->
  advance t s =
    mkState (debouncedValue s) (deps s) (timer s) (Nat.max (clock s) t)
      (next_handle s) [(h, d, v)].
Proof.
  intros E L; unfold advance; rewrite E; simpl; rewrite E; simpl.
  destruct (Nat.leb_spec d t); [lia|]; rewrite E; reflexivity.
Qed.

Lemma value_advance_due (t : nat) (s : State) (h : Debounce.handle) (d : nat)
  (v : T) :
  timers s = [(h, d, v)] -> d <= t ->
  advance t s =
    mkState v (deps s) (timer s) (Nat.max (Nat.max (clock s) d) t)
      (next_handle s) [].
Proof.
  intros E L; unfold advance; rewrite E; simpl; rewrite E; simpl.
  destruct (Nat.leb_spec d t); [|lia].
  unfold fire; rewrite E; simpl; rewrite value_is_handle_same; reflexivity.
Qed.

(** A render that changes a dependency, in a state with at most the
    timer of the last effect. *)
Lemma render_changed (value : T) (delay : nat) (s : State) :
  unchanged same value delay s = false ->
  (timers s = [] \/ exists h d v, timers s = [(h, d, v)] /\ timer s = Some h) ->
  render same value delay s =
    mkState (debouncedValue s) (Some (value, delay)) (Some (next_handle s))
      (clock s) (Pos.succ (next_handle s))
      [(next_handle s, clock s + delay, value)].
Proof.
  intros U W; unfold render; rewrite U; unfold effect, cleanup, clearTimeout.
  destruct W as [E | (h & d & v & E & Tm)].
  - destruct (timer s); simpl; rewrite E; reflexivity.
  - rewrite Tm; simpl; rewrite E; simpl; rewrite value_is_handle_same; reflexivity.
Qed.

(** ** A burst of changes *)

Lemma changes_pending (delay : nat) (l : list (nat * T)) :
  forall (t : nat) (v : T) (s : State),
    pending delay t v s -> changing same delay t v l ->
    let final := last l (t, v) in
    pending delay (fst final) (snd final) (run same delay (changes l) s) /\
    debouncedValue (run same delay (changes l) s) = debouncedValue s.
Proof.
  induction l as [|c r IH]; intros t v s P Ch; [simpl; auto|].
  destruct Ch as (L1 & L2 & D & Ch).
  destruct P as (h & E & Tm & Dp & K).
  assert (A : advance (fst c) s =
              mkState (debouncedValue s) (deps s) (timer s) (fst c)
                (next_handle s) [(h, t + delay, v)]).
  { rewrite (value_advance_not_due (fst c) s h _ v E L2), K, Nat.max_r by lia.
    reflexivity. }
  assert (R : render same (snd c) delay (advance (fst c) s) =
              mkState (debouncedValue s) (Some (snd c, delay))
                (Some (next_handle s)) (fst c) (Pos.succ (next_handle s))
                [(next_handle s, fst c + delay, snd c)]).
  { rewrite A, render_changed; simpl; auto.
    - unfold unchanged; simpl; rewrite Dp, D; reflexivity.
    - right; exists h, (t + delay), v; auto. }
  assert (P' : pending delay (fst c) (snd c)
                 (render same (snd c) delay (advance (fst c) s))).
  { rewrite R; exists (next_handle s); simpl; auto. }
  destruct (IH (fst c) (snd c) _ P' Ch) as (Pf & Vf).
  rewrite DebounceFacts.last_cons.
  replace (last r c) with (last r (fst c, snd c)) by (destruct c; reflexivity).
  change (run same delay (changes (c :: r)) s)
    with (run same delay (changes r)
            (render same (snd c) delay (advance (fst c) s))).
  cbv zeta; split; [exact Pf|].
  rewrite Vf, R; reflexivity.
Qed.

Lemma mount_pending (v0 : T) (delay : nat) :
  pending delay 0 v0 (mount v0 delay) /\ debouncedValue (mount v0 delay) = v0.
Proof. split; [exists 1%positive; simpl; auto | reflexivity]. Qed.

(** X13. While the value keeps changing, each change less than [delay]
    after the one before, the debounced value stays what it was at mount; it
    becomes the last value [delay] after the last change, and not before. *)
Theorem debounced_value_settles
  (delay : nat) (v0 : T) (l : list (nat * T)) (t : nat) :
  changing same delay 0 v0 l ->
  let final := last l (0, v0) in
  let s := run same delay (changes l) (mount v0 delay) in
  debouncedValue s = v0 /\
  (t < fst final + delay -> debouncedValue (advance t s) = v0) /\
  (fst final + delay <= t -> debouncedValue (advance t s) = snd final).
Proof.
  intros Ch final s.
  destruct (mount_pending v0 delay) as (P0 & V0).
  destruct (changes_pending delay l 0 v0 _ P0 Ch) as (P & V).
  fold final in P; fold s in P, V; rewrite V0 in V.
  destruct P as (h & E & _ & _ & K).
  split; [exact V | split; intros L].
  - rewrite (value_advance_not_due t s h _ _ E L); exact V.
  - rewrite (value_advance_due t s h _ _ E L); reflexivity.
Qed.

(** ** Renders that change nothing *)

(** X14. A render that brings the same value and delay again does not
    restart the timer: whatever such renders and passage of time come in
    between, the debounced value is the pending value once [delay] has passed
    since the effect last ran. *)
Theorem unchanged_render_keeps_due_time
  (delay : nat) (t : nat) (v : T) (s : State) (evs : list event) (t' : nat) :
  pending delay t v s -> repeating same v evs -> t + delay <= t' ->
  debouncedValue (advance t' (run same delay evs s)) = v.
Proof.
  intros P R L.
  assert (J : deps s = Some (v, delay) /\
              ((exists h, timers s = [(h, t + delay, v)]) \/
               (timers s = [] /\ debouncedValue s = v))).
  { destruct P as (h & E & _ & D & _); split; eauto. }
  clear P; revert s J; induction R as [|ev evs Hev _ IH]; intros s (D & J).
  - change (run same delay [] s) with s; destruct J as [(h & E) | (E & V)].
    + rewrite (value_advance_due t' s h _ _ E L); reflexivity.
    + rewrite (value_advance_nothing_scheduled t' s E); exact V.
  - change (run same delay (ev :: evs) s)
      with (run same delay evs (step same delay ev s)).
    apply IH; destruct ev as [v'|u]; cbn [step].
    + unfold render, unchanged; rewrite D, Hev, Nat.eqb_refl; simpl; auto.
    + destruct J as [(h & E) | (E & V)].
      * destruct (Nat.le_gt_cases (t + delay) u) as [Lu|Lu].
        -- rewrite (value_advance_due u s h _ _ E Lu); simpl; auto.
        -- rewrite (value_advance_not_due u s h _ _ E Lu); simpl; eauto.
      * rewrite (value_advance_nothing_scheduled u s E); simpl; auto.
Qed.

(** ** At most one timer, and unmounting *)

Lemma value_run_timers (delay : nat) (evs : list event) :
  forall s : State,
    (timers s = [] \/ exists h d v, timers s = [(h, d, v)] /\ timer s = Some h) ->
    timers (run same delay evs s) = [] \/
    exists h d v,
      timers (run same delay evs s) = [(h, d, v)] /\
      timer (run same delay evs s) = Some h.
Proof.
  induction evs as [|ev evs IH]; intros s W; [exact W|].
  apply (IH (step same delay ev s)); destruct ev as [value|t]; cbn [step].
  - destruct (unchanged same value delay s) eqn:U.
    + unfold render; rewrite U; exact W.
    + rewrite (render_changed value delay s U W); simpl; right; eauto.
  - destruct W as [E | (h & d & v & E & Tm)].
    + rewrite (value_advance_nothing_scheduled t s E); simpl; auto.
    + destruct (Nat.le_gt_cases d t) as [L|L].
      * rewrite (value_advance_due t s h d v E L); simpl; auto.
      * rewrite (value_advance_not_due t s h d v E L); simpl; right; eauto.
Qed.

(** X15. The hook never has more than one timer scheduled, and the
    cleanup React runs at unmount clears it: afterwards the debounced value
    no longer changes, however much time passes. *)
Theorem value_unmount_cancels_update
  (delay : nat) (v0 : T) (evs : list event) (t : nat) :
  let s := run same delay evs (mount v0 delay) in
  List.length (timers s) <= 1 /\
  timers (unmount s) = [] /\
  debouncedValue (advance t (unmount s)) = debouncedValue s.
Proof.
  intros s.
  assert (W : timers s = [] \/
              exists h d v, timers s = [(h, d, v)] /\ timer s = Some h).
  { apply value_run_timers; right; exists 1%positive, (0 + delay), v0; auto. }
  assert (E : timers (unmount s) = [] /\
              debouncedValue (unmount s) = debouncedValue s).
  { unfold unmount, cleanup, clearTimeout.
    destruct W as [E | (h & d & v & E & Tm)].
    - destruct (timer s); simpl; rewrite ?E; auto.
    - rewrite Tm; simpl; rewrite E; simpl; rewrite value_is_handle_same; auto. }
  destruct E as (E & V); split; [|split; [exact E|]].
  - destruct W as [E' | (h & d & v & E' & _)]; rewrite E'; simpl; lia.
  - rewrite (value_advance_nothing_scheduled t _ E); exact V.
Qed.

End Value.

Local Open Scope string_scope.

Lemma debounced_value_settles_witness :
  changing String.eqb 300 0 "" [(100, "r"); (200, "re"); (350, "rea")] /\
  debouncedValue
    (advance 649 (run String.eqb 300
                    (changes [(100, "r"); (200, "re"); (350, "rea")])
                    (mount "" 300))) = "" /\
  debouncedValue
    (advance 650 (run String.eqb 300
                    (changes [(100, "r"); (200, "re"); (350, "rea")])
                    (mount "" 300))) = "rea".
Proof.
  assert (Ch : changing String.eqb 300 0 ""
                 [(100, "r"); (200, "re"); (350, "rea")])
    by (simpl; repeat split; lia).
  split; [exact Ch|].
  split.
  - apply (debounced_value_settles string String.eqb 300 ""
             [(100, "r"); (200, "re"); (350, "rea")] 649 Ch); simpl; lia.
  - apply (debounced_value_settles string String.eqb 300 ""
             [(100, "r"); (200, "re"); (350, "rea")] 650 Ch); simpl; lia.
Defined.

Lemma unchanged_render_keeps_due_time_witness :
  pending 300 100 "b" (run String.eqb 300 [Elapse 100; Render "b"] (mount "a" 300)) /\
  debouncedValue
    (advance 400
       (run String.eqb 300 [Elapse 200; Render "b"; Elapse 350; Render "b"]
          (run String.eqb 300 [Elapse 100; Render "b"] (mount "a" 300)))) = "b".
Proof.
  assert (P : pending 300 100 "b"
                (run String.eqb 300 [Elapse 100; Render "b"] (mount "a" 300)))
    by (exists 2%positive; repeat split).
  split; [exact P|].
  apply (unchanged_render_keeps_due_time string String.eqb 300 100 "b" _
           [Elapse 200; Render "b"; Elapse 350; Render "b"] 400 P).
  - repeat constructor.
  - simpl; lia.
Defined.


End DebounceValueFacts.

(** * Facts about the theme provider *)

Module ThemeFacts.

Import Theme.

Local Open Scope string_scope.

Lemma resolved_name_inj (a b : ResolvedTheme) :
  String.eqb (resolved_name a) (resolved_name b) = true -> a = b.
Proof. destruct a, b; simpl; intros H; congruence. Qed.

Lemma stored_after_setTheme (t : Theme) (s : State) :
  getStoredTheme (storage (setTheme t s)) = t.
Proof.
  unfold getStoredTheme, setTheme, setItem; simpl.
  destruct t as [[|]|]; reflexivity.
Qed.

(** X16. The theme chosen with [setTheme] is the one read back from
    storage, so the one a provider mounted later starts with; and whatever
    the storage holds, what is read is ['system'] or exactly the stored
    string. *)
Theorem stored_theme_round_trip
  (t : Theme) (s : State) (matches : bool) (classes : list string)
  (st : Storage) :
  getStoredTheme (storage (setTheme t s)) = t /\
  theme (mount (storage (setTheme t s)) matches classes) = t /\
  (getStoredTheme st = system \/
   st STORAGE_KEY = Some (theme_name (getStoredTheme st))).
Proof.
  split; [apply stored_after_setTheme | split].
  - unfold mount, apply_theme; simpl; apply stored_after_setTheme.
  - unfold getStoredTheme; destruct (st STORAGE_KEY) as [x|]; [|auto].
    destruct (String.eqb_spec x "light"); [subst; auto|].
    destruct (String.eqb_spec x "dark"); [subst; auto|].
    destruct (String.eqb_spec x "system"); auto.
Qed.

Lemma apply_theme_fields (s : State) :
  theme (apply_theme s) = theme s /\
  systemTheme (apply_theme s) = systemTheme s /\
  storage (apply_theme s) = storage s.
Proof.
  unfold apply_theme; destruct (applied s) as [r|]; [|auto].
  destruct (String.eqb _ _); auto.
Qed.

Lemma apply_theme_resolved (s : State) :
  resolvedTheme (apply_theme s) = resolvedTheme s.
Proof.
  destruct (apply_theme_fields s) as (A & B & _).
  unfold resolvedTheme; rewrite A, B; reflexivity.
Qed.

(** X17. [toggleTheme] always leaves an explicit choice, the opposite of
    the theme that was showing, and stores it; from then on a change of the
    system preference no longer changes the theme shown, and toggling again
    shows the earlier theme. *)
Theorem toggle_flips_resolved_theme (s : State) (matches : bool) :
  let s' := step Toggle s in
  theme s' = fixed (opposite (resolvedTheme s)) /\
  resolvedTheme s' = opposite (resolvedTheme s) /\
  getStoredTheme (storage s') = theme s' /\
  resolvedTheme (step (SystemChange matches) s') = resolvedTheme s' /\
  resolvedTheme (step Toggle s') = resolvedTheme s.
Proof.
  intros s'.
  assert (T : theme s' = fixed (opposite (resolvedTheme s))).
  { unfold s', step; destruct (apply_theme_fields (toggleTheme s)) as (A & _).
    rewrite A; unfold toggleTheme; simpl; destruct (resolvedTheme s); reflexivity. }
  assert (R : resolvedTheme s' = opposite (resolvedTheme s))
    by (unfold resolvedTheme at 1; rewrite T; reflexivity).
  split; [exact T | split; [exact R | split; [|split]]].
  - rewrite T; unfold s', step.
    destruct (apply_theme_fields (toggleTheme s)) as (_ & _ & C); rewrite C.
    unfold toggleTheme; destruct (resolvedTheme s); apply stored_after_setTheme.
  - unfold step; rewrite apply_theme_resolved.
    unfold resolvedTheme, systemChanged; simpl; rewrite T; reflexivity.
  - unfold step; rewrite apply_theme_resolved.
    unfold toggleTheme; rewrite R.
    unfold resolvedTheme at 1; simpl; destruct (resolvedTheme s); reflexivity.
Qed.

(** ** The class on the root element *)

Lemma in_add_token (c t : string) (l : list string) :
  In c (add_token t l) <-> c = t \/ In c l.
Proof.
  unfold add_token; destruct (existsb (String.eqb t) l) eqn:E.
  - split; [auto|]; intros [-> | H]; [|exact H].
    apply existsb_exists in E; destruct E as (x & I & Q).
    apply String.eqb_eq in Q; subst; exact I.
  - rewrite in_app_iff; simpl; intuition congruence.
Qed.

Lemma in_remove_tokens (c : string) (ts l : list string) :
  In c (remove_tokens ts l) <-> In c l /\ ~ In c ts.
Proof.
  unfold remove_tokens; rewrite filter_In, negb_true_iff.
  split; intros [I N]; split; auto.
  - intros H; apply not_true_iff_false in N; apply N, existsb_exists.
    exists c; split; [exact H | apply String.eqb_refl].
  - apply not_true_iff_false; intros H; apply existsb_exists in H.
    destruct H as (x & Ix & Q); apply String.eqb_eq in Q; subst; auto.
Qed.

Lemma reapplied (r : ResolvedTheme) (l cls : list string) :
  same_others l cls ->
  shows r (add_token (resolved_name r) (remove_tokens ["light"; "dark"] l)) /\
  same_others (add_token (resolved_name r) (remove_tokens ["light"; "dark"] l))
    cls.
Proof.
  intros O; split; [split|].
  - apply in_add_token; auto.
  - rewrite in_add_token, in_remove_tokens; intros [E | [_ N]].
    + destruct r; discriminate E.
    + apply N; destruct r; simpl; auto.
  - intros c L D; rewrite in_add_token, in_remove_tokens, <- (O c L D).
    split; [intros [E | [I _]]; [destruct r; simpl in E; congruence | exact I]|].
    intros I; right; split; [exact I|]; simpl; intuition congruence.
Qed.

Lemma apply_theme_shows (s : State) (cls : list string) :
  (applied s = None \/
   exists r, applied s = Some r /\ shows r (classList s)) ->
  same_others (classList s) cls ->
  applied (apply_theme s) = Some (resolvedTheme s) /\
  shows (resolvedTheme s) (classList (apply_theme s)) /\
  same_others (classList (apply_theme s)) cls.
Proof.
  intros A O; unfold apply_theme.
  destruct A as [A | (r & A & S)]; rewrite A.
  - simpl; split; [reflexivity | apply reapplied, O].
  - destruct (String.eqb _ _) eqn:E.
    + apply resolved_name_inj in E; subst r; auto.
    + simpl; split; [reflexivity | apply reapplied, O].
Qed.

(** X18. After mounting and after every change of theme, by [setTheme],
    [toggleTheme] or the system, the root element carries the class of the
    theme that is showing and not the class of the other one, and every
    other class the page had is still there. *)
Theorem root_class_follows_theme
  (st : Storage) (matches : bool) (classes : list string) (evs : list event) :
  let s := run evs (mount st matches classes) in
  shows (resolvedTheme s) (classList s) /\
  same_others (classList s) classes.
Proof.
  assert (G : forall evs s,
             applied s = Some (resolvedTheme s) ->
             shows (resolvedTheme s) (classList s) ->
             same_others (classList s) classes ->
             shows (resolvedTheme (run evs s)) (classList (run evs s)) /\
             same_others (classList (run evs s)) classes).
  { clear; induction evs as [|ev evs IH]; intros s A S O; [simpl; auto|].
    change (run (ev :: evs) s) with (run evs (step ev s)).
    assert (P : forall s0,
               applied s0 = applied s -> classList s0 = classList s ->
               applied (apply_theme s0) = Some (resolvedTheme (apply_theme s0)) /\
               shows (resolvedTheme (apply_theme s0)) (classList (apply_theme s0)) /\
               same_others (classList (apply_theme s0)) classes).
    { intros s0 Ea Ec; rewrite apply_theme_resolved.
      apply apply_theme_shows; rewrite ?Ea, ?Ec; [right; eauto | exact O]. }
    destruct (P (match ev with
                 | SetTheme t => setTheme t s
                 | Toggle => toggleTheme s
                 | SystemChange m => systemChanged m s
                 end)) as (A' & S' & O');
      [destruct ev; reflexivity | destruct ev; reflexivity|].
    apply IH; assumption. }
  intros s; unfold s, mount.
  set (s0 := mkState (getStoredTheme st) (getSystemTheme matches) None st classes).
  destruct (apply_theme_shows s0 classes) as (A & S & O);
    [left; reflexivity | intros c _ _; reflexivity|].
  rewrite <- (apply_theme_resolved s0) in A, S.
  apply G; assumption.
Qed.

End ThemeFacts.

(** * Facts about the storage hooks *)

Module StorageHookFacts.

Import StorageHook.

Section Stored.

Variable T : Type.
Variable parse : string -> option T.
Variable stringify : T -> string.
Variable key : string.
Variable initialValue : T.

Abbreviation State := (State T).
Abbreviation readValue := (readValue parse key initialValue).
Abbreviation setValue := (setValue parse stringify key initialValue).
Abbreviation removeValue := (removeValue parse key initialValue).
Abbreviation step := (step parse stringify key initialValue).
Abbreviation run := (run parse stringify key initialValue).
Abbreviation mount := (mount parse key initialValue).


Lemma read_after_remove (st : Store) :
  readValue (removeItem key st) = initialValue.
Proof. unfold StorageHook.readValue, removeItem; rewrite String.eqb_refl; reflexivity. Qed.



Lemma run_app (evs evs' : list (event T)) (s : State) :
  run (evs ++ evs') s = run evs' (run evs s).
Proof. apply fold_left_app. Qed.


(** X20. What [setValue] stores is what comes back: when [JSON] gives a
    value back unchanged and the storage accepts the write, the hook holds
    the value, a read of the storage gives it, and a hook mounted later on
    that storage starts with it. After [removeValue] all three give the
    initial value. *)
Theorem set_then_read_round_trip (v : T) (s : State) (w : bool) :
  parse (stringify v) = Some v -> stringify v <> EmptyString ->
  writable s = true ->
  storedValue (setValue (Value v) s) = v /\
  readValue (storage (setValue (Value v) s)) = v /\
  storedValue (mount (storage (setValue (Value v) s)) w) = v /\
  storedValue (removeValue s) = initialValue /\
  storedValue (mount (storage (removeValue s)) w) = initialValue.
Proof.
  intros RT NE W.
  assert (R : readValue (setItem key (stringify v) (storage s)) = v).
  { unfold StorageHook.readValue, setItem; rewrite String.eqb_refl.
    destruct (String.eqb_spec (stringify v) EmptyString); [contradiction|].
    rewrite RT; reflexivity. }
  unfold StorageHook.setValue, StorageHook.removeValue; rewrite W.
  unfold dispatchEvent, handleStorageChange; rewrite String.eqb_refl; simpl.
  rewrite RT; unfold StorageHook.mount; simpl.
  rewrite R, read_after_remove; auto.
Qed.

Lemma refused_write (value : SetValue T) (s : State) :
  writable s = false ->
  setValue value s =
    mkState (valueToStore value s) (captured s) (storage s) false
      (warnings s ++ [warning key "setting localStorage"]) (dispatched s).
Proof. intros W; unfold StorageHook.setValue; rewrite W; reflexivity. Qed.

(** X21. When the storage refuses writes, [setValue] throws nothing: it
    logs one warning per call, leaves the storage untouched and sends no
    event, and yet changes the value the hook holds, so that state and
    storage part ways. An updater is applied to the value the closure
    captured: of several calls made through the same closure only the last
    one counts, each updater seeing the value of the last render; when the
    component renders between the calls, each updater sees what the call
    before it left. *)
Theorem refused_writes_change_only_state
  (values : list (SetValue T)) (s : State) :
  writable s = false ->
  let s' := run (map (@SetValueTo T) values) s in
  let r :=
    run (flat_map (fun value => [SetValueTo value; Rerender]) values)
      (rerender s) in
  storage s' = storage s /\
  dispatched s' = dispatched s /\
  List.length (warnings s') = List.length (warnings s) + List.length values /\
  captured s' = captured s /\
  storedValue s' =
    match rev values with
    | [] => storedValue s
    | value :: _ => valueToStore value s
    end /\
  storage r = storage s /\
  dispatched r = dispatched s /\
  List.length (warnings r) = List.length (warnings s) + List.length values /\
  storedValue r =
    fold_left (fun v value => match value with
                              | Value x => x
                              | Updater f => f v
                              end) values (storedValue s).
Proof.
  intros W; cbv zeta.
  assert (A : storage (run (map (@SetValueTo T) values) s) = storage s /\
              dispatched (run (map (@SetValueTo T) values) s) = dispatched s /\
              List.length (warnings (run (map (@SetValueTo T) values) s)) =
                List.length (warnings s) + List.length values /\
              captured (run (map (@SetValueTo T) values) s) = captured s /\
              writable (run (map (@SetValueTo T) values) s) = false /\
              storedValue (run (map (@SetValueTo T) values) s) =
                match rev values with
                | [] => storedValue s
                | value :: _ => valueToStore value s
                end).
  { induction values as [|value values IH] using rev_ind.
    - simpl; repeat split; auto.
    - destruct IH as (I1 & I2 & I3 & I4 & I5 & _).
      rewrite map_app, run_app, rev_app_distr; simpl.
      rewrite (refused_write value _ I5); simpl.
      rewrite I1, I2, I4, !length_app, I3; simpl.
      repeat split; try lia.
      destruct value; simpl; [reflexivity | rewrite I4; reflexivity]. }
  assert (B : forall values s, writable s = false -> captured s = storedValue s ->
     let r := run (flat_map (fun value => [SetValueTo value; Rerender]) values) s in
     storage r = storage s /\ dispatched r = dispatched s /\
     List.length (warnings r) = List.length (warnings s) + List.length values /\
     storedValue r =
       fold_left (fun v value => match value with
                                 | Value x => x
                                 | Updater f => f v
                                 end) values (storedValue s)).
  { clear; induction values as [|value values IH]; intros s W C; cbv zeta.
    - simpl; repeat split; lia.
    - cbn [flat_map app]; unfold StorageHook.run; cbn [fold_left StorageHook.step].
      fold (run (flat_map (fun value => [SetValueTo value; Rerender]) values)
              (rerender (setValue value s))).
      rewrite (refused_write value s W).
      match goal with |- context [run _ ?x] => destruct (IH x eq_refl eq_refl)
        as (I1 & I2 & I3 & I4) end.
      rewrite I1, I2, I3, I4; simpl; rewrite length_app; simpl.
      repeat split; try lia.
      destruct value; simpl; [reflexivity | rewrite C; reflexivity]. }
  destruct A as (A1 & A2 & A3 & A4 & _ & A6).
  destruct (B values (rerender s) W eq_refl) as (B1 & B2 & B3 & B4).
  repeat split; assumption.
Qed.

(** X22. The session hook stores what the local hook stores but sends no
    event: after [setValue] it holds the value it was given, and when [JSON]
    gives the value back unchanged a hook mounted later on that storage
    starts with it; after [removeValue] a hook mounted later starts with the
    initial value. *)
Theorem session_round_trip (v : T) (s : State) (w : bool) :
  parse (stringify v) = Some v -> stringify v <> EmptyString ->
  writable s = true ->
  storedValue (sessionSetValue stringify key (Value v) s) = v /\
  dispatched (sessionSetValue stringify key (Value v) s) = dispatched s /\
  storedValue (mount (storage (sessionSetValue stringify key (Value v) s)) w) = v /\
  storedValue (mount (storage (sessionRemoveValue key initialValue s)) w)
  = initialValue.
Proof.
  intros RT NE W; unfold sessionSetValue, sessionRemoveValue; rewrite W; simpl.
  repeat split.
  - unfold StorageHook.readValue, setItem; rewrite String.eqb_refl.
    destruct (String.eqb_spec (stringify v) EmptyString); [contradiction|].
    rewrite RT; reflexivity.
  - apply read_after_remove.
Qed.

End Stored.

Local Open Scope string_scope.


Lemma set_then_read_round_trip_witness :
  digit_parse (digit_stringify 7) = Some 7 /\
  storedValue
    (mount digit_parse "count" 0
       (storage (setValue digit_parse digit_stringify "count" 0 (Value 7)
                   (mount digit_parse "count" 0 (fun _ => None) true)))
       true) = 7.
Proof.
  split; [reflexivity|].
  apply (set_then_read_round_trip nat digit_parse digit_stringify "count" 0 7
           (mount digit_parse "count" 0 (fun _ => None) true) true);
    [reflexivity | discriminate | reflexivity].
Defined.

Lemma refused_writes_change_only_state_witness :
  writable (mount digit_parse "count" 0 (fun _ => None) false) = false /\
  storedValue
    (run digit_parse digit_stringify "count" 0
       (map (@SetValueTo nat) [Updater S; Updater S])
       (mount digit_parse "count" 0 (fun _ => None) false)) = 1 /\
  storedValue
    (run digit_parse digit_stringify "count" 0
       [SetValueTo (Updater S); Rerender; SetValueTo (Updater S); Rerender]
       (rerender (mount digit_parse "count" 0 (fun _ => None) false))) = 2.
Proof.
  split; [reflexivity|].
  destruct (refused_writes_change_only_state nat digit_parse digit_stringify
              "count" 0 [Updater S; Updater S]
              (mount digit_parse "count" 0 (fun _ => None) false) eq_refl)
    as (_ & _ & _ & _ & D & _ & _ & _ & E).
  split; [exact D | exact E].
Defined.

Lemma session_round_trip_witness :
  digit_parse (digit_stringify 7) = Some 7 /\
  storedValue
    (mount digit_parse "count" 0
       (storage (sessionSetValue digit_stringify "count" (Value 7)
                   (mount digit_parse "count" 0 (fun _ => None) true)))
       true) = 7.
Proof.
  split; [reflexivity|].
  apply (session_round_trip nat digit_parse digit_stringify "count" 0 7
           (mount digit_parse "count" 0 (fun _ => None) true) true);
    [reflexivity | discriminate | reflexivity].
Defined.


End StorageHookFacts.

(** * Facts about the API client and the retry rule *)

Module ApiFacts.

Import Api.

Section Client.

Variable Json : Type.
Variable Failure : Type.
Variable Data : Type.
Variable Others : Type.
Variable apiBaseUrl : string.
Variable encode : list (string * string) -> string.
Variable truthy : Data -> bool.
Variable stringify : Data -> string.
Variable fetch : Request Others -> Response Json Failure + Failure.

Abbreviation Network := (Request Others -> Response Json Failure + Failure).
Abbreviation request := (request (Others:=Others) apiBaseUrl encode).
Abbreviation apiClient := (apiClient apiBaseUrl encode fetch).
Abbreviation Thrown := (Thrown Json Failure).

(** ** Outcomes and retries *)

(** X23. [apiClient] resolves only with the parsed body of a response
    that is ok. A response that is not ok always rejects with an [ApiError]
    carrying its status, its status text and its body (or [null] when the
    body is not JSON). No rejection is retried once it has failed three
    times, and a rejection for status 401 or 403 is never retried. *)
Theorem api_outcome_and_retry (endpoint : string) (options : RequestOptions Others) :
  (forall v, apiClient endpoint options = Resolved Failure v ->
     exists r, fetch (request endpoint options) = inl r /\ ok r = true /\
               json r = inl v) /\
  (forall r, fetch (request endpoint options) = inl r -> ok r = false ->
     exists e,
       apiClient endpoint options = Rejected (AnApiError Failure e) /\
       status e = res_status r /\ statusText e = res_statusText r /\
       data e = match json r with inl d => Some d | inr _ => None end /\
       ((res_status r = 401 \/ res_status r = 403)%Z ->
        forall n, retry n (AnApiError Failure e) = false)) /\
  (forall (err : Thrown) n,
     apiClient endpoint options = Rejected err -> retry n err = true -> n < 3).
Proof.
  unfold Api.apiClient, settle; split; [|split].
  - intros v; destruct (fetch (request endpoint options)) as [r|f]; [|discriminate].
    destruct (ok r) eqn:O; simpl; [|discriminate].
    destruct (json r) as [d|f] eqn:J; [|discriminate].
    intros E; inversion E; subst; exists r; auto.
  - intros r F O; rewrite F, O; simpl.
    eexists; split; [reflexivity|]; simpl; repeat split.
    intros [S | S] n; rewrite S; reflexivity.
  - intros err n _ R; destruct err as [e|f]; simpl in R.
    + destruct ((status e =? 401)%Z || (status e =? 403)%Z); [discriminate|].
      apply Nat.ltb_lt, R.
    + apply Nat.ltb_lt, R.
Qed.

(** ** The request that is sent *)

Lemma to_uint_nonnil (i : nat) : Nat.to_uint i <> Decimal.Nil.
Proof.
  rewrite <- (DecimalNat.Unsigned.of_to i), DecimalNat.Unsigned.to_of.
  unfold Decimal.unorm; destruct (Decimal.nzhead _); discriminate.
Qed.

Lemma index_of_key (i : nat) : index_of (index_key i) = Some i.
Proof.
  unfold index_of, index_key.
  rewrite (NilZero.usu _ (to_uint_nonnil i)), DecimalNat.Unsigned.of_to.
  rewrite String.eqb_refl; reflexivity.
Qed.

Lemma headers_of_request (endpoint : string) (o : RequestOptions Others) :
  headers_sent (headers o) (req_headers (request endpoint o)).
Proof.
  unfold Api.request, headers_sent, spread, single; simpl.
  destruct (headers o) as [[p | entries | l]|]; simpl.
  - split; [|split].
    + intros k v E; rewrite E; reflexivity.
    + intros E; rewrite E; reflexivity.
    + intros k E N; rewrite E; simpl.
      destruct (String.eqb_spec k "Content-Type"); [contradiction | reflexivity].
  - reflexivity.
  - split; [reflexivity | split].
    + intros i; rewrite index_of_key.
      destruct (nth_error l i); simpl; [reflexivity|].
      destruct (String.eqb_spec (index_key i) "Content-Type") as [E|];
        [|reflexivity].
      pose proof (index_of_key i) as K; rewrite E in K; discriminate K.
    + intros k E N; rewrite E.
      destruct (String.eqb_spec k "Content-Type"); [contradiction | reflexivity].
  - reflexivity.
Qed.

Lemma request_sends (endpoint m : string) (b : option (BodyInit Others))
  (o : RequestOptions Others) :
  sends apiBaseUrl encode endpoint m b o (request endpoint (with_method m b o)).
Proof.
  unfold sends; repeat split.
  apply (headers_of_request endpoint (with_method m b o)).
Qed.

(** X24. Whatever the caller's options say, and also when there are
    none, each verb of [api] hands [fetch] one request and settles as the
    client settles on what [fetch] gives for it. That request goes to the
    URL of the endpoint and the caller's [params], carries the verb's own
    method and [credentials: 'include'], and passes on the caller's other
    fields. [get] and [delete] keep the caller's body; the body of [post] and
    [put] is the JSON of the data when the data is truthy, and none at all
    when it is falsy or missing. The headers hold every entry of a record the
    caller gave and a [Content-Type], the caller's if the record has a
    property of exactly that name and [application/json] otherwise; the
    entries of a [Headers] instance are
    all dropped, and those of an array of pairs end up under the indices of
    the array, so that in both cases the [Content-Type] is
    [application/json]. *)
Theorem verb_fixes_the_request
  (endpoint : string) (d : option Data) (options : option (RequestOptions Others)) :
  let o := given options in
  let json_of_data :=
    match d with
    | Some x => if truthy x then Some (TextBody Others (stringify x)) else None
    | None => None
    end in
  (exists r, sends apiBaseUrl encode endpoint "GET" (body o) o r /\
     forall f : Network, api_get apiBaseUrl encode f endpoint options = settle (f r)) /\
  (exists r, sends apiBaseUrl encode endpoint "POST" json_of_data o r /\
     forall f : Network, api_post apiBaseUrl encode truthy stringify f endpoint d options
               = settle (f r)) /\
  (exists r, sends apiBaseUrl encode endpoint "PUT" json_of_data o r /\
     forall f : Network, api_put apiBaseUrl encode truthy stringify f endpoint d options
               = settle (f r)) /\
  (exists r, sends apiBaseUrl encode endpoint "DELETE" (body o) o r /\
     forall f : Network, api_delete apiBaseUrl encode f endpoint options = settle (f r)).
Proof.
  cbv zeta; repeat split.
  - exists (request endpoint (with_method "GET" (body (given options)) (given options))).
    split; [apply request_sends | reflexivity].
  - exists (request endpoint
              (with_method "POST" (payload Others truthy stringify d) (given options))).
    split; [apply (request_sends endpoint "POST") | reflexivity].
  - exists (request endpoint
              (with_method "PUT" (payload Others truthy stringify d) (given options))).
    split; [apply (request_sends endpoint "PUT") | reflexivity].
  - exists (request endpoint
              (with_method "DELETE" (body (given options)) (given options))).
    split; [apply request_sends | reflexivity].
Qed.

End Client.

Local Open Scope string_scope.

(** A [Headers] instance and an array of pairs, with an
    [Authorization] and a [Content-Type] of the caller's: the request has
    neither header, and its [Content-Type] is the default. *)
Example caller_headers_lost :
  let sent h :=
    req_headers
      (request "https://api.test" (fun _ => "") "/users"
         (with_method "GET" None (mkOptions None None None None (Some h) (@nil (string * unit)))))
  in
  let mine := [("Authorization", "Bearer t"); ("Content-Type", "text/plain")] in
  sent (Instance mine) "Authorization" = None /\
  sent (Instance mine) "Content-Type" = Some (Text "application/json") /\
  sent (Pairs mine) "Authorization" = None /\
  sent (Pairs mine) "Content-Type" = Some (Text "application/json") /\
  sent (Pairs mine) "1" = Some (Entry ("Content-Type", "text/plain")) /\
  sent (Plain (fun k => if String.eqb k "Content-Type" then Some "text/plain"
                        else None)) "Content-Type" = Some (Text "text/plain").
Proof. cbv zeta; repeat split; reflexivity. Qed.

End ApiFacts.
